(** * abel.tools.vmi: angular and radial integration of a VMI image

    A shallow embedding of [abel/tools/vmi.py]:
    [angular_integration], [average_radial_intensity],
    [radial_integration] and [anisotropy_parameter].

    Conventions of the embedding.
    - numpy's float64 is an abstract carrier [F] with the operations the
      module uses ([Float]); no rounding law is assumed, so every result
      below holds for IEEE doubles as well as for exact arithmetic.
    - a 2D numpy array is an [array2]: a column count and a list of rows
      (the column count is kept apart because a numpy array of shape
      [(0, n)] still knows [n]).
    - Python exceptions are the [Raise] case of [result]; the image is
      passed by reference, so the three image functions run in the
      state-and-exception monad [M] over a heap of arrays.  Where in-place
      writes matter, [radial_integration] is also given statement by
      statement on a heap of objects ([Py]), and the two are related.
    - [reproject_image_into_polar] (abel.tools.polar) and [curve_fit]
      (scipy.optimize) are imported, not defined, by the module: they are
      parameters of the development. *)

From Stdlib Require Import ZArith QArith Qabs Lia.
From stdpp Require Import base option list strings gmap fin_maps.

(** ** Numeric carrier *)

Class Float (F : Type) := {
  fzero : F;                    (* 0.0 *)
  fpi : F;                      (* np.pi *)
  of_int : Z → F;               (* float(n), for the integer literals *)
  fadd : F → F → F;
  fsub : F → F → F;
  fmul : F → F → F;
  fdiv : F → F → F;
  fabs : F → F;                 (* np.abs *)
  fsin : F → F;                 (* np.sin *)
  fcos : F → F;                 (* np.cos *)
  fsqrt : F → F;                (* np.sqrt *)
  fle : F → F → bool;           (* x <= y *)
  feqb : F → F → bool           (* x == y *)
}.

(** ** Exceptions *)

Inductive exn := TypeError | IndexError | ValueError | RuntimeError.

Inductive result (A : Type) :=
  | Ok (a : A)
  | Raise (e : exn).
Arguments Ok {A} a.
Arguments Raise {A} e.

#[global] Instance result_ret : MRet result := @Ok.
#[global] Instance result_bind : MBind result := λ A B f r,
  match r with Ok a => f a | Raise e => Raise e end.
#[global] Instance result_fmap : FMap result := λ A B f r,
  match r with Ok a => Ok (f a) | Raise e => Raise e end.


(** ** The heap and the monad of the image functions *)

Abbreviation loc := positive.

Record array2 (F : Type) := Array2 { ncols : nat; rows : list (list F) }.
Arguments Array2 {F} ncols rows.
Arguments ncols {F} a.
Arguments rows {F} a.

Definition M (F A : Type) : Type := gmap loc (array2 F) → result A * gmap loc (array2 F).

#[global] Instance M_ret F : MRet (M F) := λ A a h, (Ok a, h).
#[global] Instance M_bind F : MBind (M F) := λ A B f m h,
  match m h with
  | (Ok a, h') => f a h'
  | (Raise e, h') => (Raise e, h')
  end.

(** [lift r] runs a computation that does not touch the heap. *)
Definition lift {F A} (r : result A) : M F A := λ h, (r, h).

(** Reading the array a reference points to.  A Python reference is never
    dangling; the [None] case only makes the function total. *)
Definition deref {F} (l : loc) : M F (array2 F) := λ h,
  match h !! l with
  | Some a => (Ok a, h)
  | None => (Raise RuntimeError, h)
  end.

(** ** Python values that travel through keyword arguments *)

Inductive pyval (F : Type) :=
  | PyNone
  | PyBool (b : bool)
  | PyInt (z : Z)
  | PyFloat (x : F)
  | PyPair (x y : F).
Arguments PyNone {F}.
Arguments PyBool {F} b.
Arguments PyInt {F} z.
Arguments PyFloat {F} x.
Arguments PyPair {F} x y.

(** The polar grid returned by the resampler: [(polarIM, r_grid, theta_grid)]. *)
Definition PolarGrid (F : Type) : Type := (array2 F * array2 F * array2 F)%type.

(** [radial_ranges]: an [int] step or a list of [(r_lo, r_hi)] tuples. *)
Inductive RadialRanges (F : Type) :=
  | Step (n : Z)
  | Ranges (l : list (F * F)).
Arguments Step {F} n.
Arguments Ranges {F} l.

Section Arrays.
Context {F : Type} `{!Float F}.

Definition nrows (a : array2 F) : nat := length (rows a).
Definition shape (a : array2 F) : nat * nat := (nrows a, ncols a).

(** numpy arrays are rectangular. *)
Definition rect (a : array2 F) : Prop :=
  Forall (λ r, length r = ncols a) (rows a).

(** Truth value of a Python object, as tested by [if Jacobian:]. *)
Definition truthy (v : pyval F) : bool :=
  match v with
  | PyNone => false
  | PyBool b => b
  | PyInt z => negb (z =? 0)%Z
  | PyFloat x => negb (feqb x fzero)
  | PyPair _ _ => true
  end.

(** *** Indexing *)

(** [a[i, j]] for constant non-negative indices. *)
Definition index2 (a : array2 F) (i j : nat) : result F :=
  match rows a !! i with
  | Some r => match r !! j with Some x => Ok x | None => Raise IndexError end
  | None => Raise IndexError
  end.

(** [a[i, :]] *)
Definition row (a : array2 F) (i : nat) : result (list F) :=
  match rows a !! i with
  | Some r => Ok r
  | None => Raise IndexError
  end.

(** [a[:n, j]] *)
Definition col_upto (a : array2 F) (n j : nat) : result (list F) :=
  if decide (j < ncols a)
  then Ok ((λ r, default fzero (r !! j)) <$> take n (rows a))
  else Raise IndexError.

(** [a[:, j]] *)
Definition col (a : array2 F) (j : nat) : result (list F) :=
  col_upto a (nrows a) j.

(** A Python slice bound [i] on a sequence of length [len]: negative
    bounds count from the end, and the result is clipped to [0..len]. *)
Definition slice_bound (len : nat) (i : Z) : nat :=
  Z.to_nat (Z.min (Z.of_nat len) (Z.max 0 (if (i <? 0)%Z then i + Z.of_nat len else i))).

(** [l[:stop]] and [l[start:]] *)
Definition slice_until {A} (l : list A) (stop : Z) : list A :=
  take (slice_bound (length l) stop) l.
Definition slice_from {A} (l : list A) (start : Z) : list A :=
  drop (slice_bound (length l) start) l.

(** Boolean-mask selection [x[mask]] on a 1D array and on the rows of a
    2D array; the mask must be as long as the indexed axis. *)
Fixpoint compress {A} (mask : list bool) (l : list A) : list A :=
  match mask, l with
  | b :: mask', x :: l' => if b then x :: compress mask' l' else compress mask' l'
  | _, _ => []
  end.

Definition mask1 (l : list F) (mask : list bool) : result (list F) :=
  if decide (length mask = length l) then Ok (compress mask l) else Raise IndexError.

Definition mask_rows (a : array2 F) (mask : list bool) : result (array2 F) :=
  if decide (length mask = nrows a)
  then Ok (Array2 (ncols a) (compress mask (rows a)))
  else Raise IndexError.

(** *** Element-wise operations *)

Definition map2d (f : F → F) (a : array2 F) : array2 F :=
  Array2 (ncols a) ((λ r : list F, f <$> r) <$> rows a).

(** numpy broadcasting of one axis: equal lengths, or one of them 1. *)
Definition bdim (m n : nat) : option nat :=
  if decide (m = n) then Some m
  else if decide (m = 1) then Some n
  else if decide (n = 1) then Some m
  else None.

Definition stretch {A} (n : nat) (l : list A) : list A :=
  match l with
  | [x] => replicate n x
  | _ => l
  end.

Definition broadcast2 (op : F → F → F) (a b : array2 F) : result (array2 F) :=
  match bdim (nrows a) (nrows b), bdim (ncols a) (ncols b) with
  | Some nr, Some nc =>
      Ok (Array2 nc
            (zip_with (λ ra rb, zip_with op (stretch nc ra) (stretch nc rb))
                      (stretch nr (rows a)) (stretch nr (rows b))))
  | _, _ => Raise ValueError
  end.

Definition ge_scalar (l : list F) (x : F) : list bool := (λ y, fle x y) <$> l.  (* l >= x *)
Definition le_scalar (l : list F) (x : F) : list bool := (λ y, fle y x) <$> l.  (* l <= x *)
Definition logical_and (m1 m2 : list bool) : list bool := zip_with andb m1 m2.

(** *** Reductions *)

(** [add.reduce]: the first element seeds the sum; the empty sum is 0.
    numpy's pairwise grouping of long float sums is not modelled. *)
Definition fsum (l : list F) : F :=
  match l with
  | [] => fzero
  | x :: l' => foldl fadd x l'
  end.

(** [np.sum(a, axis=1)]: one sum per row. *)
Definition sum_axis1 (a : array2 F) : list F := fsum <$> rows a.

(** [np.sum(a, axis=0)]: the rows are added up; an array of shape
    [(0, n)] sums to [n] zeros. *)
Definition sum_axis0 (a : array2 F) : list F :=
  match rows a with
  | [] => replicate (ncols a) fzero
  | r :: rs => foldl (zip_with fadd) r rs
  end.

(** [np.mean] of a 2-tuple. *)
Definition mean2 (rr : F * F) : F := fdiv (fadd rr.1 rr.2) (of_int 2).

(** [np.trapz(y, axis=1, dx=d)]:
    [(d * (y[:, 1:] + y[:, :-1]) / 2.0).sum(axis=1)]. *)
Definition trapz_terms (d : F) (y : list F) : list F :=
  zip_with (λ a b, fdiv (fmul d (fadd a b)) (of_int 2)) (drop 1 y) (take (length y - 1) y).

Definition trapz (y : array2 F) (d : F) : list F :=
  sum_axis1 (Array2 (ncols y - 1) (trapz_terms d <$> rows y)).

(** [np.diag] of a 2D array: its main diagonal. *)
Fixpoint diag_from (k : nat) (rs : list (list F)) : list F :=
  match rs with
  | [] => []
  | r :: rs' => match r !! k with
                | Some x => x :: diag_from (S k) rs'
                | None => []
                end
  end.
Definition diag (a : array2 F) : list F := diag_from 0 (rows a).

(** [x, y = l]: unpacking a sequence into two names. *)
Definition unpack2 {A} (l : list A) : result (A * A) :=
  match l with
  | [x; y] => Ok (x, y)
  | _ => Raise ValueError
  end.
End Arrays.

(** ** The module *)

Section Vmi.
Context {F : Type} `{!Float F}.

(** [abel.tools.polar.reproject_image_into_polar(IM, origin, Jacobian,
    dr, dt)], returning [(polarIM, r_grid, theta_grid)].  An argument
    the caller leaves out is [None] here: the defaults belong to the
    resampler. *)
Variable reproject_image_into_polar :
  array2 F → option (pyval F) → option (pyval F) → option (pyval F) →
  option (pyval F) → result (PolarGrid F).

(** [scipy.optimize.curve_fit(f, xdata, ydata)], returning
    [(popt, pcov)].  The model function is applied pointwise to
    [xdata]. *)
Variable curve_fit :
  (F → F → F → F) → list F → list F → result (list F * array2 F).

(** *** angular_integration *)

Definition angular_integration (IM : loc) (origin Jacobian dr dt : pyval F)
  : M F (list F * list F) :=
  im ← deref IM;
  '(polarIM, R, T) ← lift (reproject_image_into_polar
                             im (Some origin) (Some Jacobian) (Some dr) (Some dt));
  t1 ← lift (index2 T 0 1);
  t0 ← lift (index2 T 0 0);
  let dt := fsub t1 t0 in
  polarIM ← lift (if truthy Jacobian
                  then w ← broadcast2 fmul polarIM R;
                       broadcast2 fmul w (map2d fabs (map2d fsin T))
                  else Ok polarIM);
  let speeds := trapz polarIM dt in
  let n := length speeds in
  r ← lift (col_upto R n 0);
  mret (r, speeds).

(** The keyword parameters of [angular_integration] and their defaults:
    [origin=None, Jacobian=True, dr=1, dt=None]. *)
Definition angular_integration_keywords : gset string :=
  list_to_set ["origin"; "Jacobian"; "dr"; "dt"]%string.

(** The call [angular_integration(IM, kw=v, **kwargs)]: one positional
    argument, one explicit keyword and an unpacked dictionary.  Python
    raises [TypeError] when the dictionary repeats the explicit keyword,
    and when a keyword names no parameter or names [IM], which the
    positional argument has already bound. *)
Definition call_angular_integration
    (IM : loc) (kw : string) (v : pyval F) (kwargs : gmap string (pyval F))
  : M F (list F * list F) :=
  if decide (is_Some (kwargs !! kw)) then lift (Raise TypeError)
  else
    let given := <[kw := v]> kwargs in
    if decide (dom given ⊆ angular_integration_keywords)
    then angular_integration IM
           (default PyNone (given !! "origin"%string))
           (default (PyBool true) (given !! "Jacobian"%string))
           (default (PyInt 1) (given !! "dr"%string))
           (default PyNone (given !! "dt"%string))
    else lift (Raise TypeError).

(** *** average_radial_intensity *)

Definition average_radial_intensity (IM : loc) (kwargs : gmap string (pyval F))
  : M F (list F * list F) :=
  '(R, intensity) ← call_angular_integration IM "Jacobian" (PyBool false) kwargs;
  (* intensity /= 2*np.pi : in place, on the array np.trapz has just made *)
  let intensity := (λ x, fdiv x (fmul (of_int 2) fpi)) <$> intensity in
  mret (R, intensity).

(** *** radial_integration *)

(** The body of [for rr in radial_ranges], with the two lists it appends to. *)
Fixpoint band_loop (polarIM : array2 F) (r : list F) (radial_ranges : list (F * F))
    (intensity_vs_theta_at_R : list (list F)) (radial_midpt : list F)
  : result (list (list F) * list F) :=
  match radial_ranges with
  | [] => Ok (intensity_vs_theta_at_R, radial_midpt)
  | rr :: rest =>
      let subr := logical_and (ge_scalar r rr.1) (le_scalar r rr.2) in
      sel ← mask_rows polarIM subr;
      band_loop polarIM r rest
        (intensity_vs_theta_at_R ++ [sum_axis0 sel])
        (radial_midpt ++ [mean2 rr])
  end.

(** [list(zip(r[:-n], r[n:]))] *)
Definition step_ranges (r : list F) (n : Z) : list (F * F) :=
  zip (slice_until r (- n)) (slice_from r n).

Definition radial_integration (IM : loc) (radial_ranges : option (RadialRanges F))
  : M F (list (list F) * list F * list F) :=
  im ← deref IM;
  '(polarIM, r_grid, theta_grid) ← lift (reproject_image_into_polar
                                           im None None None None);
  theta ← lift (row theta_grid 0);
  r ← lift (col r_grid 0);
  let radial_ranges := default (Step 1) radial_ranges in
  let radial_ranges := match radial_ranges with
                       | Step n => step_ranges r n
                       | Ranges l => l
                       end in
  '(intensity_vs_theta_at_R, radial_midpt) ←
      lift (band_loop polarIM r radial_ranges [] []);
  mret (intensity_vs_theta_at_R, theta, radial_midpt).

(** *** anisotropy_parameter *)

Definition P2 (x : F) : F :=
  fdiv (fsub (fmul (fmul (of_int 3) x) x) (of_int 1)) (of_int 2).

Definition PAD (theta beta amplitude : F) : F :=
  fmul amplitude (fadd (of_int 1) (fmul beta (P2 (fcos theta)))).

(** The loop [for rt in theta_ranges] over the mask [subtheta]. *)
Definition theta_mask (theta : list F) (theta_ranges : list (F * F)) : list bool :=
  foldl (λ subtheta rt,
           logical_and subtheta
             (logical_and (ge_scalar theta rt.1) (le_scalar theta rt.2)))
        (replicate (length theta) true) theta_ranges.

(** The data handed to the fit. *)
Definition select_by_theta (theta intensity : list F)
    (theta_ranges : option (list (F * F))) : result (list F * list F) :=
  match theta_ranges with
  | Some rs =>
      let subtheta := theta_mask theta rs in
      theta' ← mask1 theta subtheta;
      intensity' ← mask1 intensity subtheta;
      mret (theta', intensity')
  | None => mret (theta, intensity)
  end.

Definition anisotropy_parameter (theta intensity : list F)
    (theta_ranges : option (list (F * F))) : result ((F * F) * (F * F)) :=
  '(theta, intensity) ← select_by_theta theta intensity theta_ranges;
  '(popt, pcov) ← curve_fit PAD theta intensity;
  '(beta, amplitude) ← unpack2 popt;
  '(error_beta, error_amplitude) ← unpack2 (fsqrt <$> diag pcov);
  mret ((beta, error_beta), (amplitude, error_amplitude)).

End Vmi.

(** ** A concrete carrier and concrete collaborators

    Exact rational arithmetic in lowest terms, a resampler for images
    that are already sampled on a polar grid, and a solver that checks
    only the size of its data.  They serve the closed examples. *)

Module Sample.

(** [sin], [cos] and [sqrt] leave the rationals; the instance takes the
    first terms of their series (and one Newton step for [sqrt]).  The
    examples that compare results do not go through them. *)
#[global] Instance Qfloat : Float Q := {|
  fzero := 0%Q;
  fpi := (355 # 113)%Q;
  of_int := inject_Z;
  fadd x y := Qred (x + y);
  fsub x y := Qred (x - y);
  fmul x y := Qred (x * y);
  fdiv x y := Qred (x / y);
  fabs x := Qred (Qabs x);
  fsin x := Qred (x - x * x * x / 6);
  fcos x := Qred (1 - x * x / 2);
  fsqrt x := Qred ((1 + x) / 2);
  fle := Qle_bool;
  feqb := Qeq_bool
|}.

(** Row [i] of the image is the ring of radius [i], column [j] the angle
    [j]; with the Jacobian flag the resampler multiplies by the radius. *)
Definition resample (im : array2 Q) (origin Jacobian dr dt : option (pyval Q))
  : result (PolarGrid Q) :=
  let R := Array2 (ncols im)
             (imap (λ i _, replicate (ncols im) (inject_Z (Z.of_nat i))) (rows im)) in
  let T := Array2 (ncols im)
             ((λ _, (λ j, inject_Z (Z.of_nat j)) <$> seq 0 (ncols im)) <$> rows im) in
  if from_option truthy false Jacobian
  then polarIM ← broadcast2 fmul im R; Ok (polarIM, R, T)
  else Ok (im, R, T).

(** A solver that refuses fewer data points than parameters, as
    [leastsq] does, and otherwise answers with fixed values. *)
Definition solve (f : Q → Q → Q → Q) (xdata ydata : list Q)
  : result (list Q * array2 Q) :=
  if decide (length xdata < 2) then Raise TypeError
  else Ok ([0%Q; 1%Q], Array2 2 [[0%Q; 0%Q]; [0%Q; 0%Q]]).


Definition image4 : array2 Q :=
  Array2 3 [[1; 1; 1]; [2; 2; 2]; [4; 4; 4]; [8; 8; 8]]%Q.

Definition heap4 : gmap loc (array2 Q) := {[ 1%positive := image4 ]}.

(** The grids [resample] makes of [image4], without and with the flag. *)
Definition R4 : array2 Q :=
  Array2 3 [[0; 0; 0]; [1; 1; 1]; [2; 2; 2]; [3; 3; 3]]%Q.
Definition T4 : array2 Q :=
  Array2 3 [[0; 1; 2]; [0; 1; 2]; [0; 1; 2]; [0; 1; 2]]%Q.
Definition polar4 : PolarGrid Q := (image4, R4, T4).
Definition polar4J : PolarGrid Q :=
  (Array2 3 [[0; 0; 0]; [2; 2; 2]; [8; 8; 8]; [24; 24; 24]]%Q, R4, T4).

(** Two degenerate images: a single angular sample, and no radial bin. *)
Definition image_one_angle : array2 Q := Array2 1 [[1]; [2]]%Q.
Definition polar_one_angle : PolarGrid Q :=
  (image_one_angle, Array2 1 [[0]; [1]]%Q, Array2 1 [[0]; [0]]%Q).
Definition image_no_row : array2 Q := Array2 3 [].
Definition polar_no_row : PolarGrid Q := (image_no_row, Array2 3 [], Array2 3 []).
Definition heap_degenerate : gmap loc (array2 Q) :=
  {[ 1%positive := image_one_angle; 2%positive := image_no_row ]}.

End Sample.

(** ** What the specification says, in its own words *)

Section Wording.
Context {F : Type} `{!Float F}.

(** [a[i, j]] of a rectangular array, inside its bounds. *)
Definition cell (a : array2 F) (i j : nat) : F :=
  default fzero (rows a !! i ≫= (.!! j)).

(** The keyword arguments [average_radial_intensity] may forward. *)
Definition forwarded_keywords : gset string :=
  list_to_set ["origin"; "dr"; "dt"]%string.

(** Division of a profile by 2π. *)
Definition per_solid_angle (speeds : list F) : list F :=
  (λ x, fdiv x (fmul (of_int 2) fpi)) <$> speeds.

(** The average profile of a polar grid: the trapezoidal integral over
    the angle of the polar image as it stands (no element-wise weight),
    with the step between the first two angles, divided by 2π. *)
Definition average_of_grid (g : PolarGrid F) : result (list F * list F) :=
  let '(polarIM, R, T) := g in
  t1 ← index2 T 0 1;
  t0 ← index2 T 0 0;
  let speeds := trapz polarIM (fsub t1 t0) in
  r ← col_upto R (length speeds) 0;
  mret (r, per_solid_angle speeds).

(** The contract of the resampler: three rectangular arrays of one shape,
    [nr] radial bins by [nt] angular bins. *)
Definition has_shape (a : array2 F) (nr nt : nat) : Prop :=
  shape a = (nr, nt) ∧ rect a.

Definition grid_shape (g : PolarGrid F) (nr nt : nat) : Prop :=
  let '(polarIM, R, T) := g in
  has_shape polarIM nr nt ∧ has_shape R nr nt ∧ has_shape T nr nt.

(** The radial axis [r_grid[:, 0]] and the angular axis [theta_grid[0, :]]. *)
Definition radii (g : PolarGrid F) : list F :=
  (λ r, default fzero (r !! 0)) <$> rows g.1.2.
Definition angles (g : PolarGrid F) : list F :=
  default [] (rows g.2 !! 0).

(** The step between the first two angles of the grid. *)
Definition angular_step (g : PolarGrid F) : F :=
  fsub (cell g.2 0 1) (cell g.2 0 0).

(** The polar image weighted by [R * |sin(T)|]. *)
Definition weighted (g : PolarGrid F) (i j : nat) : F :=
  fmul (fmul (cell g.1.1 i j) (cell g.1.2 i j)) (fabs (fsin (cell g.2 i j))).

(** One trapezoid: [d * (a + b) / 2.0]. *)
Definition trapezoid (d a b : F) : F := fdiv (fmul d (fadd a b)) (of_int 2).

(** The bands [radial_integration] integrates over. *)
Definition bands_of (r : list F) (radial_ranges : option (RadialRanges F)) : list (F * F) :=
  match default (Step 1) radial_ranges with
  | Step n => step_ranges r n
  | Ranges l => l
  end.

(** A radial axis that grows strictly: no later radius is [<=] an
    earlier one. *)
Definition increasing (r : list F) : Prop :=
  ∀ i j x y, i < j → r !! i = Some x → r !! j = Some y → fle y x = false.

(** A radius (or an angle) lies in a closed range. *)
Definition within (rr : F * F) (x : F) : bool := fle rr.1 x && fle x rr.2.

(** The angular profile of one radial band: the sum of the rows of the
    polar image whose radius lies in the band. *)
Definition band_profile (polarIM : array2 F) (r : list F) (rr : F * F) : list F :=
  sum_axis0 (Array2 (ncols polarIM) (compress (within rr <$> r) (rows polarIM))).

(** Two bands overlap when each begins strictly before the other ends. *)
Definition overlap (b1 b2 : F * F) : bool :=
  negb (fle b1.2 b2.1) && negb (fle b2.2 b1.1).

(** The rows of the polar image whose radius lies in a band, and column
    [j] of a list of rows. *)
Definition band_rows (polarIM : array2 F) (r : list F) (rr : F * F) : list (list F) :=
  compress (within rr <$> r) (rows polarIM).
Definition column (j : nat) (rs : list (list F)) : list F :=
  (λ row, default fzero (row !! j)) <$> rs.

(** What is made of the solver's answer: its exception, or the two
    estimates, each with the square root of its own variance. *)
Definition fit_report (answer : result (list F * array2 F)) : result ((F * F) * (F * F)) :=
  match answer with
  | Raise e => Raise e
  | Ok (popt, pcov) =>
      match popt, diag pcov with
      | [beta; amplitude], [var_beta; var_amplitude] =>
          Ok ((beta, fsqrt var_beta), (amplitude, fsqrt var_amplitude))
      | _, _ => Raise ValueError
      end
  end.

(** The points that remain after the angular filter. *)
Definition kept (theta_ranges : option (list (F * F))) (theta : F) : bool :=
  match theta_ranges with
  | Some rs => forallb (λ rt, within rt theta) rs
  | None => true
  end.

(** The average profile as a function of the flag the resampler receives:
    the image is resampled with [Jacobian] set to the flag, and with the
    [origin], [dr] and [dt] of the keyword arguments (or the defaults of
    [angular_integration]); the grid is then averaged as it stands. *)
Definition average_via_resampler
    (reproject_image_into_polar :
       array2 F → option (pyval F) → option (pyval F) → option (pyval F) →
       option (pyval F) → result (PolarGrid F))
    (resampler_Jacobian : bool) (im : array2 F) (kwargs : gmap string (pyval F))
  : result (list F * list F) :=
  reproject_image_into_polar im
    (Some (default PyNone (kwargs !! "origin"%string)))
    (Some (PyBool resampler_Jacobian))
    (Some (default (PyInt 1) (kwargs !! "dr"%string)))
    (Some (default PyNone (kwargs !! "dt"%string)))
  ≫= average_of_grid.

(** A computation that leaves the heap as it found it. *)
Definition read_only {A} (m : M F A) : Prop := ∀ h, (m h).2 = h.
End Wording.

(** ** A heap of objects that can be written in place

    [M] above passes arrays by value once they are read.  To speak of
    in-place writes the objects themselves live in the heap: arrays, and
    the two Python lists [radial_integration] appends to.  The resampler
    is a computation on this heap, handed the reference of the image. *)

Inductive pyobj (F : Type) :=
  | ONd (a : array2 F)               (* a 2D numpy array *)
  | OProfiles (l : list (list F))    (* a list of 1D arrays *)
  | OFloats (l : list F).            (* a list of floats *)
Arguments ONd {F} a.
Arguments OProfiles {F} l.
Arguments OFloats {F} l.

Definition Py (F A : Type) : Type := gmap loc (pyobj F) → result A * gmap loc (pyobj F).

#[global] Instance Py_ret F : MRet (Py F) := λ A a h, (Ok a, h).
#[global] Instance Py_bind F : MBind (Py F) := λ A B f m h,
  match m h with
  | (Ok a, h') => f a h'
  | (Raise e, h') => (Raise e, h')
  end.

Definition py_lift {F A} (r : result A) : Py F A := λ h, (r, h).

(** A new object, at a reference no object has yet. *)
Definition py_alloc {F} (o : pyobj F) : Py F loc := λ h,
  let l := fresh (dom h) in (Ok l, <[l := o]> h).

Definition py_load {F} (l : loc) : Py F (pyobj F) := λ h,
  match h !! l with
  | Some o => (Ok o, h)
  | None => (Raise RuntimeError, h)
  end.

(** An in-place write: the object at [l] is replaced. *)
Definition py_store {F} (l : loc) (o : pyobj F) : Py F unit := λ h,
  match h !! l with
  | Some _ => (Ok (), <[l := o]> h)
  | None => (Raise RuntimeError, h)
  end.

Section HeapVmi.
Context {F : Type} `{!Float F}.

(** The call [reproject_image_into_polar(IM)] on the heap: it receives
    the reference of the image and returns the references of
    [polarIM], [r_grid] and [theta_grid]. *)
Variable reproject_h : loc → Py F (loc * loc * loc).

Definition load_nd (l : loc) : Py F (array2 F) :=
  o ← py_load l;
  match o with
  | ONd a => mret a
  | _ => py_lift (Raise TypeError)
  end.

Definition load_profiles (l : loc) : Py F (list (list F)) :=
  o ← py_load l;
  match o with
  | OProfiles xs => mret xs
  | _ => py_lift (Raise TypeError)
  end.

Definition load_floats (l : loc) : Py F (list F) :=
  o ← py_load l;
  match o with
  | OFloats xs => mret xs
  | _ => py_lift (Raise TypeError)
  end.

(** [lst.append(x)] on the two lists. *)
Definition append_profile (l : loc) (x : list F) : Py F unit :=
  xs ← load_profiles l; py_store l (OProfiles (xs ++ [x])).

Definition append_float (l : loc) (x : F) : Py F unit :=
  xs ← load_floats l; py_store l (OFloats (xs ++ [x])).

(** The loop [for rr in radial_ranges], appending in place. *)
Fixpoint band_loop_h (polarIM : loc) (r : list F) (radial_ranges : list (F * F))
    (intensity_vs_theta_at_R radial_midpt : loc) : Py F unit :=
  match radial_ranges with
  | [] => mret ()
  | rr :: rest =>
      let subr := logical_and (ge_scalar r rr.1) (le_scalar r rr.2) in
      p ← load_nd polarIM;
      sel ← py_lift (mask_rows p subr);
      _ ← append_profile intensity_vs_theta_at_R (sum_axis0 sel);
      _ ← append_float radial_midpt (mean2 rr);
      band_loop_h polarIM r rest intensity_vs_theta_at_R radial_midpt
  end.

(** [radial_integration] statement by statement on this heap.  The three
    results are read out at the end: the stacked copy [np.array(..)] of
    the profiles, the angular axis and the list of radii. *)
Definition radial_integration_h (IM : loc) (radial_ranges : option (RadialRanges F))
  : Py F (list (list F) * list F * list F) :=
  '(polarIM, r_grid, theta_grid) ← reproject_h IM;
  tg ← load_nd theta_grid;
  theta ← py_lift (row tg 0);
  rg ← load_nd r_grid;
  r ← py_lift (col rg 0);
  let radial_ranges := default (Step 1) radial_ranges in
  let radial_ranges := match radial_ranges with
                       | Step n => step_ranges r n
                       | Ranges l => l
                       end in
  intensity_vs_theta_at_R ← py_alloc (OProfiles []);
  radial_midpt ← py_alloc (OFloats []);
  _ ← band_loop_h polarIM r radial_ranges intensity_vs_theta_at_R radial_midpt;
  profiles ← load_profiles intensity_vs_theta_at_R;
  midpts ← load_floats radial_midpt;
  mret (profiles, theta, midpts).

(** The boundary contract of the resampler: called on the reference of an
    image it writes to no object that exists, and what it returns (three
    arrays, or an exception) is a function [reproject] of the value of
    the image. *)
Definition resampler_contract
    (reproject : array2 F → option (pyval F) → option (pyval F) →
                 option (pyval F) → option (pyval F) → result (PolarGrid F)) : Prop :=
  ∀ h IM im, h !! IM = Some (ONd im) →
    ∃ h', h ⊆ h' ∧
      match reproject im None None None None with
      | Raise e => reproject_h IM h = (Raise e, h')
      | Ok (p, r, t) =>
          ∃ lp lr lt, reproject_h IM h = (Ok (lp, lr, lt), h') ∧
            h' !! lp = Some (ONd p) ∧ h' !! lr = Some (ONd r) ∧ h' !! lt = Some (ONd t)
      end.
End HeapVmi.

(** A resampler on the heap made from one on values: it reads the image
    and allocates the three arrays. *)
Definition resample_by_value {F}
    (reproject : array2 F → option (pyval F) → option (pyval F) →
                 option (pyval F) → option (pyval F) → result (PolarGrid F))
    (IM : loc) : Py F (loc * loc * loc) :=
  im ← load_nd IM;
  '(p, r, t) ← py_lift (reproject im None None None None);
  lp ← py_alloc (ONd p);
  lr ← py_alloc (ONd r);
  lt ← py_alloc (ONd t);
  mret (lp, lr, lt).

(** The sample image as an object of this heap. *)
Definition sample_object_heap : gmap loc (pyobj Q) :=
  {[ 1%positive := ONd Sample.image4 ]}.

(** ** Running the monad *)

Section Monad.
Context {F : Type}.

Lemma bind_run {A B} (m : M F A) (k : A → M F B) h :
  (m ≫= k) h = match m h with
               | (Ok a, h') => k a h'
               | (Raise e, h') => (Raise e, h')
               end.
Proof. reflexivity. Qed.

Lemma bind_lift_ok {A B} (r : result A) (a : A) (k : A → M F B) h :
  r = Ok a → (lift r ≫= k) h = k a h.
Proof. intros ->. reflexivity. Qed.

Lemma bind_lift_raise {A B} (r : result A) e (k : A → M F B) h :
  r = Raise e → (lift r ≫= k) h = (Raise e, h).
Proof. intros ->. reflexivity. Qed.

Lemma bind_deref {B} (l : loc) (a : array2 F) (k : array2 F → M F B) h :
  h !! l = Some a → (deref l ≫= k) h = k a h.
Proof. intros Hl. rewrite bind_run. unfold deref. rewrite Hl. reflexivity. Qed.

Lemma read_only_ret {A} (a : A) : read_only (mret a : M F A).
Proof. intros h. reflexivity. Qed.

Lemma read_only_lift {A} (r : result A) : read_only (lift r : M F A).
Proof. intros h. reflexivity. Qed.

Lemma read_only_deref (l : loc) : read_only (deref l : M F (array2 F)).
Proof. intros h. unfold deref. destruct (h !! l); reflexivity. Qed.

Lemma read_only_bind {A B} (m : M F A) (k : A → M F B) :
  read_only m → (∀ a, read_only (k a)) → read_only (m ≫= k).
Proof.
  intros Hm Hk h. rewrite bind_run.
  specialize (Hm h). destruct (m h) as [[a|e] h']; simpl in Hm; subst h'.
  - apply Hk.
  - reflexivity.
Qed.
End Monad.

Create HintDb read_only.
#[global] Hint Resolve read_only_ret read_only_lift read_only_deref : read_only.

(** ** Properties of the module *)

Section Facts.
Context {F : Type} `{!Float F}.
Variable reproject_image_into_polar :
  array2 F → option (pyval F) → option (pyval F) → option (pyval F) →
  option (pyval F) → result (PolarGrid F).


(** *** The functions do not write to the heap *)

Lemma radial_integration_read_only IM radial_ranges :
  read_only (radial_integration reproject_image_into_polar IM radial_ranges).
Proof.
  unfold radial_integration.
  apply read_only_bind; [auto with read_only|]. intros im.
  apply read_only_bind; [auto with read_only|]. intros [[polarIM r_grid] theta_grid].
  apply read_only_bind; [auto with read_only|]. intros theta.
  apply read_only_bind; [auto with read_only|]. intros r.
  apply read_only_bind; [auto with read_only|]. intros [I mid].
  auto with read_only.
Qed.

(** *** Keyword arguments of [average_radial_intensity] *)

(** C10: when the caller passes a [Jacobian] keyword, whatever its
    value, [average_radial_intensity] raises [TypeError] and does
    nothing else. *)
Theorem average_radial_intensity_Jacobian_keyword
    IM (kwargs : gmap string (pyval F)) v h :
  kwargs !! "Jacobian"%string = Some v →
  average_radial_intensity reproject_image_into_polar IM kwargs h = (Raise TypeError, h).
Proof.
  intros Hv. unfold average_radial_intensity, call_angular_integration.
  rewrite bind_run. rewrite decide_True by (rewrite Hv; eauto). reflexivity.
Qed.

Lemma forwarded_no_Jacobian (kwargs : gmap string (pyval F)) :
  dom kwargs ⊆ forwarded_keywords → kwargs !! "Jacobian"%string = None.
Proof.
  intros Hdom. apply not_elem_of_dom. intros Hin. apply Hdom in Hin.
  unfold forwarded_keywords in Hin.
  rewrite elem_of_list_to_set, !elem_of_cons, elem_of_nil in Hin.
  destruct Hin as [?|[?|[?|[]]]]; discriminate.
Qed.

Lemma call_angular_integration_forwarded IM (kwargs : gmap string (pyval F)) v :
  dom kwargs ⊆ forwarded_keywords →
  call_angular_integration reproject_image_into_polar IM "Jacobian" v kwargs =
  angular_integration reproject_image_into_polar IM
    (default PyNone (kwargs !! "origin"%string)) v
    (default (PyInt 1) (kwargs !! "dr"%string))
    (default PyNone (kwargs !! "dt"%string)).
Proof.
  intros Hdom. unfold call_angular_integration.
  rewrite decide_False by (rewrite (forwarded_no_Jacobian _ Hdom); apply is_Some_None).
  rewrite decide_True.
  - rewrite lookup_insert_eq. rewrite !lookup_insert_ne by done. reflexivity.
  - intros k Hk. rewrite dom_insert, elem_of_union, elem_of_singleton in Hk.
    unfold angular_integration_keywords.
    rewrite elem_of_list_to_set, !elem_of_cons.
    destruct Hk as [->|Hk]; [tauto|].
    apply Hdom in Hk. unfold forwarded_keywords in Hk.
    rewrite elem_of_list_to_set, !elem_of_cons in Hk. tauto.
Qed.

(** C2: for keyword arguments among [origin], [dr] and [dt],
    [average_radial_intensity] returns what [angular_integration]
    returns for [Jacobian=False] and the same arguments: the same radial
    coordinates, and each intensity divided by 2π (and the same
    exception when [angular_integration] raises one). *)
Theorem average_radial_intensity_angular_integration
    IM (kwargs : gmap string (pyval F)) h :
  dom kwargs ⊆ forwarded_keywords →
  average_radial_intensity reproject_image_into_polar IM kwargs h =
  let '(res, h') := angular_integration reproject_image_into_polar IM
                      (default PyNone (kwargs !! "origin"%string)) (PyBool false)
                      (default (PyInt 1) (kwargs !! "dr"%string))
                      (default PyNone (kwargs !! "dt"%string)) h in
  ((λ '(r, speeds), (r, per_solid_angle speeds)) <$> res, h').
Proof.
  intros Hdom. unfold average_radial_intensity.
  rewrite bind_run, call_angular_integration_forwarded by done.
  destruct (angular_integration _ _ _ _ _ _ h) as [[[r speeds]|e] h']; reflexivity.
Qed.

(** *** Radial bands *)

Lemma logical_and_within (r : list F) (rr : F * F) :
  logical_and (ge_scalar r rr.1) (le_scalar r rr.2) = within rr <$> r.
Proof.
  unfold logical_and, ge_scalar, le_scalar.
  induction r as [|x r IH]; simpl; [reflexivity|]. f_equal. exact IH.
Qed.

Lemma band_loop_spec (polarIM : array2 F) (r : list F) bands I mid :
  nrows polarIM = length r →
  band_loop polarIM r bands I mid =
  Ok (I ++ (band_profile polarIM r <$> bands), mid ++ (mean2 <$> bands)).
Proof.
  intros Hlen. revert I mid.
  induction bands as [|rr bands IH]; intros I mid; simpl.
  - rewrite !app_nil_r. reflexivity.
  - rewrite logical_and_within. unfold mask_rows.
    rewrite decide_True by (rewrite length_fmap; congruence).
    simpl. rewrite IH, <- !app_assoc. reflexivity.
Qed.

Lemma grid_row_angles (g : PolarGrid F) nr nt :
  grid_shape g nr nt → 0 < nr →
  row g.2 0 = Ok (angles g) ∧ length (angles g) = nt.
Proof.
  destruct g as [[p R] T]. intros (_ & _ & Hs & Hr) Hnr. simpl.
  unfold row, angles. simpl. injection Hs as Hn Hc.
  unfold nrows in Hn. destruct (rows T) as [|t ts] eqn:E; simpl in *; [lia|].
  split; [reflexivity|]. unfold rect in Hr. rewrite E in Hr.
  apply Forall_cons in Hr as [Ht _]. congruence.
Qed.

Lemma grid_col_radii (g : PolarGrid F) nr nt :
  grid_shape g nr nt → 0 < nt →
  col g.1.2 0 = Ok (radii g) ∧ length (radii g) = nr ∧ nrows g.1.1 = nr.
Proof.
  destruct g as [[p R] T]. intros ((Hp & _) & (Hs & _) & _) Hnt. simpl.
  injection Hs as Hn Hc. injection Hp as Hpn _.
  unfold col, col_upto, radii. simpl.
  rewrite decide_True by lia. rewrite take_ge by (unfold nrows; lia).
  rewrite length_fmap. auto.
Qed.

Lemma radial_integration_run IM radial_ranges h im g nr nt :
  h !! IM = Some im →
  reproject_image_into_polar im None None None None = Ok g →
  grid_shape g nr nt → 0 < nr → 0 < nt →
  radial_integration reproject_image_into_polar IM radial_ranges h =
  (Ok (band_profile g.1.1 (radii g) <$> bands_of (radii g) radial_ranges,
       angles g,
       mean2 <$> bands_of (radii g) radial_ranges), h).
Proof.
  intros Hh Hg Hs Hnr Hnt.
  destruct (grid_row_angles g nr nt Hs Hnr) as [Hrow _].
  destruct (grid_col_radii g nr nt Hs Hnt) as (Hcol & Hlen & Hp).
  unfold radial_integration.
  rewrite (bind_deref _ _ _ _ Hh), (bind_lift_ok _ _ _ _ Hg).
  destruct g as [[p R] T]; simpl in *.
  rewrite (bind_lift_ok _ _ _ _ Hrow), (bind_lift_ok _ _ _ _ Hcol).
  erewrite bind_lift_ok; [|apply band_loop_spec; congruence].
  reflexivity.
Qed.

(** Python's [r[:-n]] and [r[n:]] for a positive [n]. *)
Lemma step_ranges_positive (r : list F) (n : Z) :
  (0 < n)%Z →
  step_ranges r n = zip (take (length r - Z.to_nat n) r) (drop (Z.to_nat n) r).
Proof.
  intros Hn. unfold step_ranges, slice_until, slice_from, slice_bound.
  destruct (Z.ltb_spec (- n) 0); [|lia]. destruct (Z.ltb_spec n 0); [lia|].
  destruct (decide (Z.to_nat n ≤ length r)).
  - f_equal; f_equal; lia.
  - rewrite (drop_ge r (Z.to_nat n)) by lia.
    replace (length r - Z.to_nat n) with 0 by lia.
    replace (Z.to_nat (Z.min _ (Z.max 0 (- n + _)))) with 0 by lia.
    rewrite drop_ge by lia. reflexivity.
Qed.

Lemma step_ranges_length (r : list F) (n : Z) :
  (0 < n)%Z → length (step_ranges r n) = length r - Z.to_nat n.
Proof.
  intros Hn. rewrite step_ranges_positive by done.
  rewrite length_zip_with, length_take, length_drop. lia.
Qed.

Lemma step_ranges_lookup (r : list F) (n : Z) (i : nat) :
  (0 < n)%Z → i < length r - Z.to_nat n →
  ∃ lo hi, r !! i = Some lo ∧ r !! (i + Z.to_nat n) = Some hi ∧
           step_ranges r n !! i = Some (lo, hi).
Proof.
  intros Hn Hi. rewrite step_ranges_positive by done.
  destruct (lookup_lt_is_Some_2 r i) as [lo Hlo]; [lia|].
  destruct (lookup_lt_is_Some_2 r (i + Z.to_nat n)) as [hi Hhi]; [lia|].
  exists lo, hi. split; [done|]. split; [done|].
  rewrite lookup_zip_with. rewrite lookup_take_lt, lookup_drop by lia.
  rewrite Hlo. simpl. rewrite (Nat.add_comm (Z.to_nat n) i), Hhi. reflexivity.
Qed.

(** C5: with [radial_ranges] left out or equal to 1, [radial_integration]
    returns [len(r) - 1] angular profiles and [len(r) - 1] radii; the
    [i]-th band pairs the consecutive grid radii [r[i]] and [r[i+1]], its
    profile sums the rows whose radius lies between them, and its
    representative radius is their arithmetic mean. *)
Theorem radial_integration_unit_bands IM radial_ranges h im g nr nt :
  radial_ranges = None ∨ radial_ranges = Some (Step 1) →
  h !! IM = Some im →
  reproject_image_into_polar im None None None None = Ok g →
  grid_shape g nr nt → 0 < nr → 0 < nt →
  ∃ I mid,
    radial_integration reproject_image_into_polar IM radial_ranges h = (Ok (I, angles g, mid), h) ∧
    length I = length (radii g) - 1 ∧
    length mid = length (radii g) - 1 ∧
    ∀ i, i < length (radii g) - 1 →
      ∃ lo hi, radii g !! i = Some lo ∧ radii g !! (S i) = Some hi ∧
        I !! i = Some (band_profile g.1.1 (radii g) (lo, hi)) ∧
        mid !! i = Some (fdiv (fadd lo hi) (of_int 2)).
Proof.
  intros Hrr Hh Hg Hs Hnr Hnt.
  assert (Hb : bands_of (radii g) radial_ranges = step_ranges (radii g) 1)
    by (destruct Hrr as [-> | ->]; reflexivity).
  eexists _, _. split; [|split; [|split]].
  - rewrite (radial_integration_run _ _ _ _ _ _ _ Hh Hg Hs Hnr Hnt), Hb. reflexivity.
  - rewrite length_fmap, step_ranges_length by lia. reflexivity.
  - rewrite length_fmap, step_ranges_length by lia. reflexivity.
  - intros i Hi.
    destruct (step_ranges_lookup (radii g) 1 i) as (lo & hi & Hlo & Hhi & Hband);
      [lia | exact Hi |].
    replace (i + Z.to_nat 1) with (S i) in Hhi by lia.
    exists lo, hi. rewrite !list_lookup_fmap, Hband. auto.
Qed.

Lemma compress_none {A} (mask : list bool) (l : list A) :
  Forall (λ b, b = false) mask → compress mask l = [].
Proof.
  intros Hm. revert l. induction Hm as [|b mask -> _ IH]; intros [|x l]; simpl; auto.
Qed.

Lemma band_profile_empty (polarIM : array2 F) (r : list F) (rr : F * F) :
  (∀ x, x ∈ r → within rr x = false) →
  band_profile polarIM r rr = replicate (ncols polarIM) fzero.
Proof.
  intros Hout. unfold band_profile. rewrite compress_none; [reflexivity|].
  apply Forall_fmap, Forall_forall. exact Hout.
Qed.

(** C8: a requested band whose closed interval contains no grid radius
    does not make [radial_integration] raise; the call returns, and the
    profile of that band is a row of zeros as long as the angular axis. *)
Theorem radial_integration_empty_band IM bands h im g nr nt k rr :
  h !! IM = Some im →
  reproject_image_into_polar im None None None None = Ok g →
  grid_shape g nr nt → 0 < nr → 0 < nt →
  bands !! k = Some rr →
  (∀ x, x ∈ radii g → within rr x = false) →
  ∃ I mid,
    radial_integration reproject_image_into_polar IM (Some (Ranges bands)) h = (Ok (I, angles g, mid), h) ∧
    length I = length bands ∧
    I !! k = Some (replicate (length (angles g)) fzero).
Proof.
  intros Hh Hg Hs Hnr Hnt Hk Hout. eexists _, _. split; [|split].
  - rewrite (radial_integration_run _ _ _ _ _ _ _ Hh Hg Hs Hnr Hnt). reflexivity.
  - unfold bands_of. simpl. apply length_fmap.
  - unfold bands_of. simpl. rewrite list_lookup_fmap, Hk. simpl.
    rewrite band_profile_empty by exact Hout.
    destruct (grid_row_angles g nr nt Hs Hnr) as [_ ->].
    destruct g as [[p R] T]. destruct Hs as ((Hp & _) & _).
    simpl. injection Hp as _ ->. reflexivity.
Qed.

(** *** Rectangular arrays of a known shape *)

Lemma has_shape_row (a : array2 F) nr nt i :
  has_shape a nr nt → i < nr → ∃ r, rows a !! i = Some r ∧ length r = nt.
Proof.
  intros [Hs Hr] Hi. injection Hs as Hn Hc.
  destruct (lookup_lt_is_Some_2 (rows a) i) as [r Hrow]; [unfold nrows in Hn; lia|].
  exists r. split; [exact Hrow|].
  rewrite <- Hc. exact (proj1 (Forall_lookup _ _) Hr i r Hrow).
Qed.

Lemma has_shape_cell (a : array2 F) nr nt i j :
  has_shape a nr nt → i < nr → j < nt →
  ∃ r, rows a !! i = Some r ∧ length r = nt ∧ r !! j = Some (cell a i j).
Proof.
  intros Ha Hi Hj. destruct (has_shape_row a nr nt i Ha Hi) as (r & Hrow & Hlen).
  exists r. split; [exact Hrow|]. split; [exact Hlen|].
  destruct (lookup_lt_is_Some_2 r j) as [x Hx]; [lia|].
  unfold cell. rewrite Hrow. simpl. rewrite Hx. reflexivity.
Qed.

Lemma index2_cell (a : array2 F) nr nt i j :
  has_shape a nr nt → i < nr → j < nt → index2 a i j = Ok (cell a i j).
Proof.
  intros Ha Hi Hj. destruct (has_shape_cell a nr nt i j Ha Hi Hj) as (r & Hrow & _ & Hx).
  unfold index2. rewrite Hrow, Hx. reflexivity.
Qed.

Lemma stretch_same {A} (n : nat) (l : list A) : length l = n → stretch n l = l.
Proof. destruct l as [|x [|y l]]; simpl; intros <-; reflexivity. Qed.

Lemma bdim_same (n : nat) : bdim n n = Some n.
Proof. unfold bdim. rewrite decide_True; reflexivity. Qed.

Lemma zip_rows_same (op : F → F → F) (nt : nat) (la lb : list (list F)) :
  Forall (λ r, length r = nt) la → Forall (λ r, length r = nt) lb →
  zip_with (λ ra rb, zip_with op (stretch nt ra) (stretch nt rb)) la lb
  = zip_with (zip_with op) la lb.
Proof.
  intros Ha. revert lb. induction Ha as [|ra la Hra _ IH]; intros lb Hb; [reflexivity|].
  destruct Hb as [|rb lb Hrb Hb]; [reflexivity|]. simpl.
  rewrite !stretch_same by assumption. f_equal. apply IH, Hb.
Qed.

Lemma broadcast2_same_shape (op : F → F → F) (a b : array2 F) nr nt :
  has_shape a nr nt → has_shape b nr nt →
  broadcast2 op a b = Ok (Array2 nt (zip_with (zip_with op) (rows a) (rows b))).
Proof.
  intros [Hsa Hra] [Hsb Hrb]. injection Hsa as Hna Hca. injection Hsb as Hnb Hcb.
  unfold broadcast2. rewrite Hna, Hnb, Hca, Hcb, !bdim_same.
  rewrite !stretch_same by assumption.
  unfold rect in Hra, Hrb. rewrite Hca in Hra. rewrite Hcb in Hrb.
  rewrite zip_rows_same by assumption. reflexivity.
Qed.

Lemma zip_rows_shape (op : F → F → F) (a b : array2 F) nr nt :
  has_shape a nr nt → has_shape b nr nt →
  has_shape (Array2 nt (zip_with (zip_with op) (rows a) (rows b))) nr nt.
Proof.
  intros [Hsa Hra] [Hsb Hrb]. injection Hsa as Hna Hca. injection Hsb as Hnb Hcb.
  unfold nrows in *. split.
  - unfold shape, nrows. simpl. rewrite length_zip_with. f_equal. lia.
  - unfold rect in *. simpl. apply Forall_lookup. intros i r Hi.
    apply lookup_zip_with_Some in Hi as (ra & rb & -> & Ha & Hb).
    rewrite length_zip_with.
    rewrite (proj1 (Forall_lookup _ _) Hra i ra Ha).
    rewrite (proj1 (Forall_lookup _ _) Hrb i rb Hb). lia.
Qed.

Lemma zip_rows_cell (op : F → F → F) (a b : array2 F) nr nt i j :
  has_shape a nr nt → has_shape b nr nt → i < nr → j < nt →
  cell (Array2 nt (zip_with (zip_with op) (rows a) (rows b))) i j
  = op (cell a i j) (cell b i j).
Proof.
  intros Ha Hb Hi Hj.
  destruct (has_shape_cell a nr nt i j Ha Hi Hj) as (ra & Hra & _ & Hxa).
  destruct (has_shape_cell b nr nt i j Hb Hi Hj) as (rb & Hrb & _ & Hxb).
  unfold cell at 1. simpl.
  rewrite lookup_zip_with, Hra, Hrb. simpl.
  rewrite lookup_zip_with, Hxa, Hxb. reflexivity.
Qed.

Lemma map2d_shape (f : F → F) (a : array2 F) nr nt :
  has_shape a nr nt → has_shape (map2d f a) nr nt.
Proof.
  intros [Hs Hr]. injection Hs as Hn Hc. split.
  - unfold shape, nrows, map2d. simpl. rewrite length_fmap. f_equal; assumption.
  - unfold rect, map2d in *. simpl. apply Forall_fmap.
    eapply Forall_impl; [exact Hr|]. intros r Hlen. simpl.
    rewrite length_fmap. exact Hlen.
Qed.

Lemma map2d_cell (f : F → F) (a : array2 F) nr nt i j :
  has_shape a nr nt → i < nr → j < nt →
  cell (map2d f a) i j = f (cell a i j).
Proof.
  intros Ha Hi Hj.
  destruct (has_shape_cell a nr nt i j Ha Hi Hj) as (r & Hr & _ & Hx).
  unfold cell at 1, map2d. simpl.
  rewrite list_lookup_fmap, Hr. simpl. rewrite list_lookup_fmap, Hx. reflexivity.
Qed.

(** *** The trapezoidal rule *)

Lemma trapz_terms_seq (d : F) (y : list F) :
  trapz_terms d y =
  (λ j, trapezoid d (default fzero (y !! S j)) (default fzero (y !! j)))
    <$> seq 0 (length y - 1).
Proof.
  apply list_eq. intros j. unfold trapz_terms.
  rewrite lookup_zip_with, lookup_drop, list_lookup_fmap. simpl.
  destruct (decide (j < length y - 1)) as [Hj|Hj].
  - rewrite lookup_take_lt by exact Hj.
    destruct (lookup_lt_is_Some_2 y (S j)) as [a Ha]; [lia|].
    destruct (lookup_lt_is_Some_2 y j) as [b Hb]; [lia|].
    rewrite (proj2 (lookup_seq 0 (length y - 1) j j)) by (split; [reflexivity|exact Hj]).
    simpl. rewrite Ha, Hb. reflexivity.
  - rewrite (lookup_ge_None_2 (seq 0 (length y - 1)) j) by (rewrite length_seq; lia).
    simpl. destruct (y !! S j) as [a|] eqn:Ha; [|reflexivity]. simpl.
    rewrite lookup_take_ge by lia. reflexivity.
Qed.

Lemma trapz_length (y : array2 F) (d : F) : length (trapz y d) = nrows y.
Proof. unfold trapz, sum_axis1. simpl. rewrite !length_fmap. reflexivity. Qed.

Lemma trapz_lookup (y : array2 F) (d : F) nr nt i :
  has_shape y nr nt → i < nr →
  trapz y d !! i =
  Some (fsum ((λ j, trapezoid d (cell y i (S j)) (cell y i j)) <$> seq 0 (nt - 1))).
Proof.
  intros Hy Hi. destruct (has_shape_row y nr nt i Hy Hi) as (r & Hr & Hlen).
  unfold trapz, sum_axis1. simpl.
  rewrite !list_lookup_fmap, Hr. simpl. rewrite trapz_terms_seq, Hlen.
  do 2 f_equal. apply list_fmap_ext. intros _ j _.
  unfold cell. rewrite Hr. reflexivity.
Qed.

(** *** angular_integration with the Jacobian *)

Lemma col_upto_radii (g : PolarGrid F) nr nt :
  grid_shape g nr nt → 0 < nt → col_upto g.1.2 nr 0 = Ok (radii g).
Proof.
  intros Hs Hnt. destruct (grid_col_radii g nr nt Hs Hnt) as (Hcol & _ & _).
  destruct g as [[p R] T]. unfold grid_shape in Hs.
  destruct Hs as (_ & [HR _] & _). injection HR as Hn _.
  simpl in *. unfold col in Hcol. rewrite Hn in Hcol. exact Hcol.
Qed.

(** C4: with the Jacobian flag set, [angular_integration] returns the
    radial axis of the grid and one intensity for each of its [nr] radial
    bins; the intensity of bin [i] is the sum over the angular axis of the
    trapezoids [dt * (w[i][j+1] + w[i][j]) / 2], where [w] is the polar
    image multiplied cell by cell by [R * |sin(T)|] and [dt] is the
    difference of the first two angles of the grid. *)
Theorem angular_integration_Jacobian IM origin Jacobian dr dt h im g nr nt :
  truthy Jacobian = true →
  h !! IM = Some im →
  reproject_image_into_polar im (Some origin) (Some Jacobian) (Some dr) (Some dt) = Ok g →
  grid_shape g nr nt → 0 < nr → 2 ≤ nt →
  ∃ speeds,
    angular_integration reproject_image_into_polar IM origin Jacobian dr dt h = (Ok (radii g, speeds), h) ∧
    length speeds = nr ∧
    length (radii g) = nr ∧
    ∀ i, i < nr →
      speeds !! i =
      Some (fsum ((λ j, trapezoid (angular_step g) (weighted g i (S j)) (weighted g i j))
                    <$> seq 0 (nt - 1))).
Proof.
  intros HJ Hh Hg Hs Hnr Hnt.
  pose proof (col_upto_radii g nr nt Hs ltac:(lia)) as Hcol.
  destruct (grid_col_radii g nr nt Hs ltac:(lia)) as (_ & Hlen & _).
  destruct g as [[p R] T]. assert (Hs' := Hs). unfold grid_shape in Hs'.
  destruct Hs' as (Hp & HR & HT). simpl in Hcol.
  pose proof (map2d_shape fabs _ _ _ (map2d_shape fsin _ _ _ HT)) as HsinT.
  pose proof (zip_rows_shape fmul _ _ _ _ Hp HR) as HpR.
  pose proof (zip_rows_shape fmul _ _ _ _ HpR HsinT) as Hw.
  set (w := Array2 nt (zip_with (zip_with fmul)
                (rows (Array2 nt (zip_with (zip_with fmul) (rows p) (rows R))))
                (rows (map2d fabs (map2d fsin T))))) in *.
  exists (trapz w (angular_step (p, R, T))).
  assert (Hwlen : length (trapz w (angular_step (p, R, T))) = nr).
  { rewrite trapz_length. destruct Hw as [Hsw _]. injection Hsw as Hn. exact Hn. }
  split; [|split; [exact Hwlen|split; [exact Hlen|]]].
  - unfold angular_integration.
    rewrite (bind_deref _ _ _ _ Hh), (bind_lift_ok _ _ _ _ Hg).
    rewrite (bind_lift_ok _ _ _ _ (index2_cell T nr nt 0 1 HT Hnr ltac:(lia))).
    rewrite (bind_lift_ok _ _ _ _ (index2_cell T nr nt 0 0 HT Hnr ltac:(lia))).
    rewrite HJ.
    erewrite bind_lift_ok;
      [|rewrite (broadcast2_same_shape fmul p R nr nt Hp HR); simpl;
        apply (broadcast2_same_shape fmul _ _ nr nt HpR HsinT)].
    fold w. change (fsub (cell T 0 1) (cell T 0 0)) with (angular_step (p, R, T)).
    rewrite Hwlen. rewrite (bind_lift_ok _ _ _ _ Hcol). reflexivity.
  - intros i Hi. rewrite (trapz_lookup w _ nr nt i Hw Hi).
    do 2 f_equal. apply list_fmap_ext. intros k j Hj.
    apply lookup_seq in Hj as [Hjk Hk]. simpl in Hjk. subst j.
    unfold weighted, w. cbn [fst snd].
    rewrite !(zip_rows_cell fmul _ _ nr nt) by (assumption || lia).
    rewrite !(map2d_cell fabs _ nr nt), !(map2d_cell fsin _ nr nt)
      by (try apply map2d_shape; assumption || lia).
    reflexivity.
Qed.

(** *** average_radial_intensity and the resampler *)

(** C1 (amended): the [Jacobian=False] that [average_radial_intensity]
    passes to [angular_integration] reaches the resampler too.  The result
    is the trapezoidal integral over the angle of the polar image
    resampled with [Jacobian=False], without element-wise weight, divided
    by 2π. *)
Theorem average_radial_intensity_resampler IM (kwargs : gmap string (pyval F)) h im :
  dom kwargs ⊆ forwarded_keywords →
  h !! IM = Some im →
  average_radial_intensity reproject_image_into_polar IM kwargs h =
  (average_via_resampler reproject_image_into_polar false im kwargs, h).
Proof.
  intros Hdom Hh. unfold average_radial_intensity.
  rewrite bind_run, call_angular_integration_forwarded by done.
  unfold angular_integration, average_via_resampler.
  rewrite (bind_deref _ _ _ _ Hh), bind_run. unfold lift at 1.
  destruct (reproject_image_into_polar _ _ _ _ _) as [[[p R] T]|e]; [|reflexivity].
  simpl. rewrite bind_run. unfold lift at 1.
  destruct (index2 T 0 1) as [t1|e]; [|reflexivity].
  simpl. rewrite bind_run. unfold lift at 1.
  destruct (index2 T 0 0) as [t0|e]; [|reflexivity].
  simpl. rewrite bind_run. unfold lift at 1.
  simpl. rewrite bind_run. unfold lift at 1.
  destruct (col_upto R _ 0) as [r|e]; reflexivity.
Qed.

(** *** Integer steps larger than one *)

(** For a step of two or more on a strictly growing radial axis, each band
    [(r[i], r[i+n])] overlaps the next one, [(r[i+1], r[i+1+n])]: the
    windows slide by one radius, they do not tile the axis. *)
Lemma step_ranges_overlap (r : list F) (n : Z) (i : nat) b1 b2 :
  (2 ≤ n)%Z → increasing r →
  step_ranges r n !! i = Some b1 →
  step_ranges r n !! S i = Some b2 →
  overlap b1 b2 = true.
Proof.
  intros Hn Hinc H1 H2.
  assert (Hi : S i < length r - Z.to_nat n).
  { apply lookup_lt_Some in H2. rewrite step_ranges_length in H2 by lia. exact H2. }
  destruct (step_ranges_lookup r n i) as (lo1 & hi1 & Hlo1 & Hhi1 & E1); [lia|lia|].
  destruct (step_ranges_lookup r n (S i)) as (lo2 & hi2 & Hlo2 & Hhi2 & E2); [lia|lia|].
  rewrite E1 in H1. rewrite E2 in H2. injection H1 as <-. injection H2 as <-.
  unfold overlap. simpl.
  rewrite (Hinc (S i) (i + Z.to_nat n) lo2 hi1) by (assumption || lia).
  rewrite (Hinc i (S i + Z.to_nat n) lo1 hi2) by (assumption || lia).
  reflexivity.
Qed.

End Facts.

Section FitFacts.
Context {F : Type} `{!Float F}.
Variable curve_fit :
  (F → F → F → F) → list F → list F → result (list F * array2 F).

(** *** The angular filter of [anisotropy_parameter] *)

Lemma theta_mask_from (theta : list F) (g : F → bool) (rs : list (F * F)) :
  foldl (λ subtheta rt,
           logical_and subtheta
             (logical_and (ge_scalar theta rt.1) (le_scalar theta rt.2)))
        (g <$> theta) rs
  = (λ t, g t && forallb (λ rt, within rt t) rs) <$> theta.
Proof.
  revert g. induction rs as [|rt rs IH]; intros g; simpl.
  - apply list_fmap_ext. intros _ t _. symmetry. apply andb_true_r.
  - rewrite logical_and_within.
    assert (Hstep : logical_and (g <$> theta) (within rt <$> theta)
                    = (λ t, g t && within rt t) <$> theta).
    { unfold logical_and. clear IH.
      induction theta as [|t theta IHt]; simpl; [reflexivity|]. f_equal. exact IHt. }
    rewrite Hstep, IH. apply list_fmap_ext. intros _ t _.
    symmetry. apply andb_assoc.
Qed.

Lemma theta_mask_kept (theta : list F) (rs : list (F * F)) :
  theta_mask theta rs = kept (Some rs) <$> theta.
Proof.
  unfold theta_mask.
  replace (replicate (length theta) true) with ((λ _ : F, true) <$> theta).
  - rewrite theta_mask_from. reflexivity.
  - induction theta as [|t theta IH]; simpl; [reflexivity|]. f_equal. exact IH.
Qed.


Lemma compress_zip {A B} (mask : list bool) (l : list A) (k : list B) :
  zip (compress mask l) (compress mask k) = compress mask (zip l k).
Proof.
  revert l k. induction mask as [|b mask IH]; intros [|x l] [|y k]; simpl; try reflexivity.
  - destruct b; simpl; [reflexivity|]. apply zip_with_nil_r.
  - destruct b; simpl; rewrite IH; reflexivity.
Qed.

Lemma compress_fst_filter {A B} (f : A → bool) (l : list A) (k : list B) :
  compress (f <$> l) (zip l k) = filter (λ p, f p.1) (zip l k).
Proof.
  revert k. induction l as [|x l IH]; intros [|y k]; simpl; try reflexivity.
  rewrite filter_cons. simpl. destruct (f x) eqn:E.
  - rewrite decide_True by exact I. f_equal. apply IH.
  - rewrite decide_False by exact id. apply IH.
Qed.

Lemma compress_length_eq {A B} (mask : list bool) (l : list A) (k : list B) :
  length l = length k → length (compress mask l) = length (compress mask k).
Proof.
  revert l k. induction mask as [|b mask IH]; intros [|x l] [|y k] Hlen;
    simpl in *; try reflexivity; try discriminate.
  destruct b; simpl; rewrite (IH l k) by lia; reflexivity.
Qed.

Lemma kept_all_ranges (rs : list (F * F)) (t : F) :
  kept (Some rs) t ↔ Forall (λ rt, fle rt.1 t ∧ fle t rt.2) rs.
Proof.
  simpl. unfold within. induction rs as [|rt rs IH]; simpl.
  - split; [constructor | exact (λ _, I)].
  - rewrite Forall_cons, !andb_True, IH. reflexivity.
Qed.

Lemma select_by_theta_points (theta intensity : list F) (rs : list (F * F)) :
  length intensity = length theta →
  ∃ theta' intensity',
    select_by_theta theta intensity (Some rs) = Ok (theta', intensity') ∧
    length theta' = length intensity' ∧
    zip theta' intensity' =
      filter (λ p, Forall (λ rt, fle rt.1 p.1 ∧ fle p.1 rt.2) rs) (zip theta intensity).
Proof.
  intros Hlen.
  exists (compress (theta_mask theta rs) theta), (compress (theta_mask theta rs) intensity).
  split; [|split].
  - unfold select_by_theta, mask1.
    rewrite !decide_True
      by (rewrite theta_mask_kept, length_fmap; congruence).
    reflexivity.
  - apply compress_length_eq. congruence.
  - rewrite compress_zip, theta_mask_kept, compress_fst_filter.
    apply list_filter_iff. intros [t x]. apply kept_all_ranges.
Qed.

Lemma anisotropy_parameter_fit_report
    (theta intensity theta' intensity' : list F) theta_ranges :
  select_by_theta theta intensity theta_ranges = Ok (theta', intensity') →
  anisotropy_parameter curve_fit theta intensity theta_ranges =
  fit_report (curve_fit PAD theta' intensity').
Proof.
  intros Hsel. unfold anisotropy_parameter. rewrite Hsel. simpl.
  destruct (curve_fit PAD theta' intensity') as [[popt pcov]|e]; [|reflexivity].
  simpl. destruct popt as [|beta [|amplitude [|extra popt]]]; try reflexivity.
  simpl. destruct (diag pcov) as [|v1 [|v2 [|v3 vs]]]; reflexivity.
Qed.

(** C6: with angular sub-ranges, the data [anisotropy_parameter] hands to
    [curve_fit] are exactly the points [(theta, intensity)] whose [theta]
    satisfies the lower and the upper bound of every range, in their
    order, and nothing else: the result is what is made of the solver's
    answer for the model and those points. *)
Theorem anisotropy_parameter_ranges (theta intensity : list F) (rs : list (F * F)) :
  length intensity = length theta →
  let points :=
    filter (λ p, Forall (λ rt, fle rt.1 p.1 ∧ fle p.1 rt.2) rs) (zip theta intensity) in
  anisotropy_parameter curve_fit theta intensity (Some rs) =
  fit_report (curve_fit PAD points.*1 points.*2).
Proof.
  intros Hlen points.
  destruct (select_by_theta_points theta intensity rs Hlen)
    as (theta' & intensity' & Hsel & Hlen' & Hzip).
  rewrite (anisotropy_parameter_fit_report _ _ _ _ _ Hsel).
  unfold points. rewrite <- Hzip.
  rewrite fst_zip, snd_zip by lia. reflexivity.
Qed.


End FitFacts.

(** ** Closed runs on the sample image *)

Lemma resample_polar4 :
  Sample.resample Sample.image4 None None None None = Ok Sample.polar4.
Proof. vm_compute. reflexivity. Qed.

Lemma polar4_shape : grid_shape Sample.polar4 4 3.
Proof.
  repeat split; unfold rect; simpl; repeat constructor.
Qed.

Lemma polar4J_shape : grid_shape Sample.polar4J 4 3.
Proof.
  repeat split; unfold rect; simpl; repeat constructor.
Qed.

Lemma heap4_image : Sample.heap4 !! 1%positive = Some Sample.image4.
Proof. vm_compute. reflexivity. Qed.

(** C3: on the radial axis [0, 1, 2, 3] the step 2 gives the two bands
    [(0, 2)] and [(1, 3)].  They overlap, and the rows of radius 1 and 2
    are summed into both profiles: 7 = 1+2+4 and 14 = 2+4+8.  The
    docstring announces [(r0, r_step), (r_step, r_2step), ..], which here
    is the single band [(0, 2)]. *)
Lemma radial_integration_step_2_overlaps :
  step_ranges [0; 1; 2; 3]%Q 2 = [(0, 2); (1, 3)]%Q ∧
  overlap (0%Q, 2%Q) (1%Q, 3%Q) = true ∧
  radial_integration Sample.resample 1%positive (Some (Step 2)) Sample.heap4 =
  (Ok ([[7; 7; 7]; [14; 14; 14]], [0; 1; 2], [1; 2])%Q, Sample.heap4).
Proof. vm_compute. auto. Qed.

(** C1, as the claim words it: the resampler keeps its Jacobian weight.
    On the sample image the averaged profile of the grid resampled with
    the flag set is [0, 4, 16, 48] / 2π, and [average_radial_intensity]
    returns [2, 4, 8, 16] / 2π. *)
Lemma average_radial_intensity_resampler_flag_set_fails :
  average_radial_intensity Sample.resample 1%positive ∅ Sample.heap4
  ≠ (average_via_resampler Sample.resample true Sample.image4 ∅, Sample.heap4).
Proof.
  intros H. apply (f_equal fst) in H. vm_compute in H. discriminate H.
Qed.


(** ** The theorems at concrete inputs *)

Lemma average_radial_intensity_angular_integration_witness :
  dom ({[ "dr"%string := PyInt 1 ]} : gmap string (pyval Q)) ⊆ forwarded_keywords ∧
  average_radial_intensity Sample.resample 1%positive
    {[ "dr"%string := PyInt 1 ]} Sample.heap4 =
  (Ok ([0; 1; 2; 3], [113 # 355; 226 # 355; 452 # 355; 904 # 355])%Q, Sample.heap4).
Proof.
  assert (Hdom : dom ({[ "dr"%string := PyInt 1 ]} : gmap string (pyval Q))
                 ⊆ forwarded_keywords)
    by (apply (bool_decide_eq_true_1 _); vm_compute; reflexivity).
  split; [exact Hdom|].
  rewrite (average_radial_intensity_angular_integration
             Sample.resample 1%positive _ Sample.heap4 Hdom).
  vm_compute. reflexivity.
Defined.

Lemma average_radial_intensity_Jacobian_keyword_witness :
  average_radial_intensity Sample.resample 1%positive
    {[ "Jacobian"%string := PyBool false ]} Sample.heap4 =
  (Raise TypeError, Sample.heap4).
Proof.
  apply (average_radial_intensity_Jacobian_keyword
           Sample.resample 1%positive _ (PyBool false)).
  vm_compute. reflexivity.
Defined.

Lemma average_radial_intensity_resampler_witness :
  average_radial_intensity Sample.resample 1%positive ∅ Sample.heap4 =
  (Ok ([0; 1; 2; 3], [113 # 355; 226 # 355; 452 # 355; 904 # 355])%Q, Sample.heap4).
Proof.
  rewrite (average_radial_intensity_resampler
             Sample.resample 1%positive ∅ Sample.heap4 Sample.image4).
  - vm_compute. reflexivity.
  - apply (bool_decide_eq_true_1 _). vm_compute. reflexivity.
  - vm_compute. reflexivity.
Defined.

Lemma radial_integration_unit_bands_witness :
  ∃ I mid,
    radial_integration Sample.resample 1%positive None Sample.heap4 =
      (Ok (I, angles Sample.polar4, mid), Sample.heap4) ∧
    length I = 3 ∧ length mid = 3 ∧
    mid !! 0 = Some (1 # 2)%Q.
Proof.
  destruct (radial_integration_unit_bands
              Sample.resample 1%positive None Sample.heap4
              Sample.image4 Sample.polar4 4 3)
    as (I & mid & Hrun & HI & Hmid & Hbands).
  - left. reflexivity.
  - vm_compute. reflexivity.
  - vm_compute. reflexivity.
  - repeat split; unfold rect; simpl; repeat constructor.
  - lia.
  - lia.
  - exists I, mid. split; [exact Hrun|]. split; [exact HI|]. split; [exact Hmid|].
    destruct (Hbands 0) as (lo & hi & Hlo & Hhi & _ & Hm).
    + simpl. lia.
    + injection Hlo as <-. injection Hhi as <-. exact Hm.
Defined.

Lemma radial_integration_empty_band_witness :
  ∃ I mid,
    radial_integration Sample.resample 1%positive
      (Some (Ranges [(5, 7); (1 # 2, 5 # 2)]%Q)) Sample.heap4 =
      (Ok (I, angles Sample.polar4, mid), Sample.heap4) ∧
    length I = 2 ∧
    I !! 0 = Some [0; 0; 0]%Q.
Proof.
  destruct (radial_integration_empty_band
              Sample.resample 1%positive [(5, 7); (1 # 2, 5 # 2)]%Q Sample.heap4
              Sample.image4 Sample.polar4 4 3 0 (5, 7)%Q)
    as (I & mid & Hrun & HI & Hk).
  - vm_compute. reflexivity.
  - vm_compute. reflexivity.
  - repeat split; unfold rect; simpl; repeat constructor.
  - lia.
  - lia.
  - reflexivity.
  - apply Forall_forall. simpl. repeat constructor.
  - exists I, mid. split; [exact Hrun|]. split; [exact HI | exact Hk].
Defined.

Lemma anisotropy_parameter_ranges_witness :
  anisotropy_parameter Sample.solve [0; 1; 2; 3]%Q [5; 6; 7; 8]%Q
    (Some [(1, 3); (0, 2)]%Q) =
  fit_report (Sample.solve PAD [1; 2]%Q [6; 7]%Q).
Proof.
  rewrite (anisotropy_parameter_ranges Sample.solve
             [0; 1; 2; 3]%Q [5; 6; 7; 8]%Q [(1, 3); (0, 2)]%Q).
  - reflexivity.
  - reflexivity.
Defined.


Lemma angular_integration_Jacobian_witness :
  ∃ speeds,
    angular_integration Sample.resample 1%positive
      PyNone (PyBool true) (PyInt 1) PyNone Sample.heap4 =
      (Ok (radii Sample.polar4J, speeds), Sample.heap4) ∧
    length speeds = 4 ∧
    length (radii Sample.polar4J) = 4.
Proof.
  destruct (angular_integration_Jacobian
              Sample.resample 1%positive PyNone (PyBool true) (PyInt 1) PyNone
              Sample.heap4 Sample.image4 Sample.polar4J 4 3)
    as (speeds & Hrun & Hlen & Hr & _).
  - reflexivity.
  - vm_compute. reflexivity.
  - vm_compute. reflexivity.
  - repeat split; unfold rect; simpl; repeat constructor.
  - lia.
  - lia.
  - exists speeds. auto.
Defined.

(** ** Further properties of the image functions *)

Section MoreFacts.
Context {F : Type} `{!Float F}.
Variable reproject_image_into_polar :
  array2 F → option (pyval F) → option (pyval F) → option (pyval F) →
  option (pyval F) → result (PolarGrid F).

(** *** angular_integration without the Jacobian, and on a degenerate grid *)

Lemma angular_integration_falsy_run IM origin Jacobian dr dt h im g nr nt :
  truthy Jacobian = false →
  h !! IM = Some im →
  reproject_image_into_polar im (Some origin) (Some Jacobian) (Some dr) (Some dt) = Ok g →
  grid_shape g nr nt → 0 < nr → 2 ≤ nt →
  angular_integration reproject_image_into_polar IM origin Jacobian dr dt h =
  (Ok (radii g, trapz g.1.1 (angular_step g)), h).
Proof.
  intros HJ Hh Hg Hs Hnr Hnt.
  pose proof (col_upto_radii g nr nt Hs ltac:(lia)) as Hcol.
  destruct g as [[p R] T]. assert (Hs' := Hs). unfold grid_shape in Hs'.
  destruct Hs' as (Hp & HR & HT). simpl in Hcol.
  unfold angular_integration.
  rewrite (bind_deref _ _ _ _ Hh), (bind_lift_ok _ _ _ _ Hg).
  rewrite (bind_lift_ok _ _ _ _ (index2_cell T nr nt 0 1 HT Hnr ltac:(lia))).
  rewrite (bind_lift_ok _ _ _ _ (index2_cell T nr nt 0 0 HT Hnr ltac:(lia))).
  rewrite HJ. erewrite bind_lift_ok by reflexivity.
  rewrite trapz_length. destruct Hp as [Hsp _]. injection Hsp as Hn _. rewrite Hn.
  rewrite (bind_lift_ok _ _ _ _ Hcol). reflexivity.
Qed.

(** X1: without the Jacobian flag [angular_integration] integrates the
    polar image as the resampler returned it: the intensity of bin [i] is
    the sum of the trapezoids [dt * (p[i][j+1] + p[i][j]) / 2], and the
    radii and the intensities have the same length. *)
Theorem angular_integration_plain IM origin Jacobian dr dt h im g nr nt :
  truthy Jacobian = false →
  h !! IM = Some im →
  reproject_image_into_polar im (Some origin) (Some Jacobian) (Some dr) (Some dt) = Ok g →
  grid_shape g nr nt → 0 < nr → 2 ≤ nt →
  ∃ speeds,
    angular_integration reproject_image_into_polar IM origin Jacobian dr dt h =
      (Ok (radii g, speeds), h) ∧
    length speeds = length (radii g) ∧
    ∀ i, i < nr →
      speeds !! i =
      Some (fsum ((λ j, trapezoid (angular_step g) (cell g.1.1 i (S j)) (cell g.1.1 i j))
                    <$> seq 0 (nt - 1))).
Proof.
  intros HJ Hh Hg Hs Hnr Hnt. exists (trapz g.1.1 (angular_step g)).
  split; [|split].
  - exact (angular_integration_falsy_run _ _ _ _ _ _ _ _ _ _ HJ Hh Hg Hs Hnr Hnt).
  - destruct (grid_col_radii g nr nt Hs ltac:(lia)) as (_ & -> & <-).
    apply trapz_length.
  - intros i Hi. destruct g as [[p R] T]. destruct Hs as (Hp & _).
    exact (trapz_lookup p _ nr nt i Hp Hi).
Qed.

(** X2: [dt = T[0,1] - T[0,0]] needs two angles.  On a grid without
    rows, or with fewer than two angular samples, [angular_integration]
    raises [IndexError], whatever the flag. *)
Theorem angular_integration_too_few_angles IM origin Jacobian dr dt h im g nr nt :
  h !! IM = Some im →
  reproject_image_into_polar im (Some origin) (Some Jacobian) (Some dr) (Some dt) = Ok g →
  grid_shape g nr nt → nr = 0 ∨ nt < 2 →
  angular_integration reproject_image_into_polar IM origin Jacobian dr dt h =
  (Raise IndexError, h).
Proof.
  intros Hh Hg Hs Hsmall. destruct g as [[p R] T]. destruct Hs as (_ & _ & HT).
  unfold angular_integration.
  rewrite (bind_deref _ _ _ _ Hh), (bind_lift_ok _ _ _ _ Hg).
  apply bind_lift_raise. unfold index2.
  destruct (rows T !! 0) as [r|] eqn:Hrow; [|reflexivity].
  destruct (decide (0 < nr)) as [Hnr|Hnr].
  - destruct (has_shape_row T nr nt 0 HT Hnr) as (r' & Hr' & Hlen).
    rewrite Hrow in Hr'. injection Hr' as <-.
    rewrite (lookup_ge_None_2 r 1) by lia. reflexivity.
  - apply lookup_lt_Some in Hrow. destruct HT as [HsT _]. injection HsT as Hn _.
    unfold nrows in Hn. lia.
Qed.

(** X3: under the shape contract, [average_radial_intensity] returns the
    radial axis and, for each radial bin, the trapezoidal integral over
    the angle of the unweighted polar image divided by 2π; both outputs
    have the length of the radial axis. *)
Theorem average_radial_intensity_profile IM (kwargs : gmap string (pyval F)) h im g nr nt :
  dom kwargs ⊆ forwarded_keywords →
  h !! IM = Some im →
  reproject_image_into_polar im
    (Some (default PyNone (kwargs !! "origin"%string))) (Some (PyBool false))
    (Some (default (PyInt 1) (kwargs !! "dr"%string)))
    (Some (default PyNone (kwargs !! "dt"%string))) = Ok g →
  grid_shape g nr nt → 0 < nr → 2 ≤ nt →
  ∃ intensity,
    average_radial_intensity reproject_image_into_polar IM kwargs h =
      (Ok (radii g, intensity), h) ∧
    length intensity = length (radii g) ∧
    ∀ i, i < nr →
      intensity !! i =
      Some (fdiv (fsum ((λ j, trapezoid (angular_step g)
                                (cell g.1.1 i (S j)) (cell g.1.1 i j))
                          <$> seq 0 (nt - 1)))
                 (fmul (of_int 2) fpi)).
Proof.
  intros Hdom Hh Hg Hs Hnr Hnt.
  exists (per_solid_angle (trapz g.1.1 (angular_step g))). split; [|split].
  - unfold average_radial_intensity.
    rewrite bind_run, call_angular_integration_forwarded by exact Hdom.
    rewrite (angular_integration_falsy_run IM _ (PyBool false) _ _ h im g nr nt eq_refl Hh Hg Hs Hnr Hnt).
    reflexivity.
  - unfold per_solid_angle. rewrite length_fmap.
    destruct (grid_col_radii g nr nt Hs ltac:(lia)) as (_ & -> & <-).
    apply trapz_length.
  - intros i Hi. unfold per_solid_angle. rewrite list_lookup_fmap.
    destruct g as [[p R] T]. destruct Hs as (Hp & _).
    rewrite (trapz_lookup p _ nr nt i Hp Hi). reflexivity.
Qed.

(** *** Keyword arguments *)

(** X4: a keyword argument other than [origin], [dr] and [dt] makes
    [average_radial_intensity] raise [TypeError]: it is either the
    [Jacobian] the function passes itself, or [IM], or no parameter of
    [angular_integration]. *)
Theorem average_radial_intensity_unexpected_keyword
    IM (kwargs : gmap string (pyval F)) (k : string) h :
  is_Some (kwargs !! k) →
  k ∉ forwarded_keywords →
  average_radial_intensity reproject_image_into_polar IM kwargs h = (Raise TypeError, h).
Proof.
  intros Hk Hnot. unfold average_radial_intensity, call_angular_integration.
  rewrite bind_run. case_decide as HJ; [reflexivity|].
  rewrite decide_False; [reflexivity|]. intros Hsub.
  assert (Hin : k ∈ dom (<["Jacobian"%string := PyBool false]> kwargs)).
  { rewrite dom_insert, elem_of_union. right. apply elem_of_dom. exact Hk. }
  apply Hsub in Hin. unfold angular_integration_keywords in Hin.
  unfold forwarded_keywords in Hnot.
  rewrite elem_of_list_to_set, !elem_of_cons, elem_of_nil in Hin.
  rewrite elem_of_list_to_set, !elem_of_cons, elem_of_nil in Hnot.
  destruct Hin as [->|[->|[->|[->|[]]]]]; [tauto | exact (HJ Hk) | tauto | tauto].
Qed.

(** *** Sums of rows *)

Lemma foldl_rows_length (nt : nat) (rs : list (list F)) (acc : list F) :
  length acc = nt → Forall (λ r, length r = nt) rs →
  length (foldl (zip_with fadd) acc rs) = nt.
Proof.
  intros Hacc Hrs. revert acc Hacc.
  induction Hrs as [|r rs Hr _ IH]; intros acc Hacc; simpl; [exact Hacc|].
  apply IH. rewrite length_zip_with. lia.
Qed.

Lemma foldl_rows_lookup (nt j : nat) (rs : list (list F)) (acc : list F) (a : F) :
  Forall (λ r, length r = nt) rs → j < nt → acc !! j = Some a →
  foldl (zip_with fadd) acc rs !! j = Some (foldl fadd a (column j rs)).
Proof.
  intros Hrs Hj. revert acc a.
  induction Hrs as [|r rs Hr _ IH]; intros acc a Hacc; simpl; [exact Hacc|].
  destruct (lookup_lt_is_Some_2 r j) as [x Hx]; [lia|].
  rewrite Hx. simpl. apply IH.
  rewrite lookup_zip_with, Hacc, Hx. reflexivity.
Qed.

Lemma sum_axis0_length (nt : nat) (rs : list (list F)) :
  Forall (λ r, length r = nt) rs → length (sum_axis0 (Array2 nt rs)) = nt.
Proof.
  intros Hrs. unfold sum_axis0. simpl. destruct Hrs as [|r rs Hr Hrs].
  - apply length_replicate.
  - apply foldl_rows_length; assumption.
Qed.

Lemma sum_axis0_lookup (nt j : nat) (rs : list (list F)) :
  Forall (λ r, length r = nt) rs → j < nt →
  sum_axis0 (Array2 nt rs) !! j = Some (fsum (column j rs)).
Proof.
  intros Hrs Hj. unfold sum_axis0. simpl. destruct Hrs as [|r rs Hr Hrs].
  - rewrite lookup_replicate_2 by exact Hj. reflexivity.
  - destruct (lookup_lt_is_Some_2 r j) as [x Hx]; [lia|].
    rewrite (foldl_rows_lookup nt j rs r x Hrs Hj Hx). simpl. rewrite Hx. reflexivity.
Qed.

Lemma compress_Forall {A} (P : A → Prop) (mask : list bool) (l : list A) :
  Forall P l → Forall P (compress mask l).
Proof.
  intros Hl. revert mask. induction Hl as [|x l Hx _ IH]; intros [|b mask]; simpl;
    try constructor.
  destruct b; [constructor; [exact Hx|]|]; apply IH.
Qed.

Lemma compress_snd_filter {A B} (f : A → bool) (l : list A) (k : list B) :
  compress (f <$> l) k = (filter (λ x, f x.1) (zip l k)).*2.
Proof.
  revert k. induction l as [|x l IH]; intros [|y k]; simpl; try reflexivity.
  rewrite filter_cons. simpl. destruct (f x).
  - rewrite decide_True by exact I. simpl. f_equal. apply IH.
  - rewrite decide_False by exact id. apply IH.
Qed.

Lemma band_rows_rect (polarIM : array2 F) nr nt (r : list F) (rr : F * F) :
  has_shape polarIM nr nt → Forall (λ row, length row = nt) (band_rows polarIM r rr).
Proof.
  intros [Hs Hr]. injection Hs as _ Hc. apply compress_Forall.
  unfold rect in Hr. rewrite Hc in Hr. exact Hr.
Qed.

Lemma band_profile_rows (polarIM : array2 F) nr nt (r : list F) (rr : F * F) :
  has_shape polarIM nr nt →
  band_profile polarIM r rr = sum_axis0 (Array2 nt (band_rows polarIM r rr)).
Proof. intros [Hs _]. injection Hs as _ Hc. unfold band_profile. rewrite Hc. reflexivity. Qed.

(** *** radial_integration, band by band *)

(** X5: [radial_integration] returns one angular profile and one radius
    per band, in the order of the bands; every profile is as long as the
    angular axis, so the profiles stack into a rectangular array, and the
    radius of a band is the mean of its two bounds. *)
Theorem radial_integration_shape IM radial_ranges h im g nr nt :
  h !! IM = Some im →
  reproject_image_into_polar im None None None None = Ok g →
  grid_shape g nr nt → 0 < nr → 0 < nt →
  ∃ I mid,
    radial_integration reproject_image_into_polar IM radial_ranges h =
      (Ok (I, angles g, mid), h) ∧
    length I = length (bands_of (radii g) radial_ranges) ∧
    Forall (λ profile, length profile = length (angles g)) I ∧
    mid = (λ rr, fdiv (fadd rr.1 rr.2) (of_int 2)) <$> bands_of (radii g) radial_ranges.
Proof.
  intros Hh Hg Hs Hnr Hnt. eexists _, _. split; [|split; [|split]].
  - exact (radial_integration_run _ _ _ _ _ _ _ _ Hh Hg Hs Hnr Hnt).
  - apply length_fmap.
  - destruct (grid_row_angles g nr nt Hs Hnr) as [_ ->].
    destruct g as [[p R] T]. destruct Hs as (Hp & _). simpl.
    apply Forall_fmap, Forall_forall. intros rr _. simpl.
    rewrite (band_profile_rows p nr nt) by exact Hp.
    apply sum_axis0_length, (band_rows_rect p nr nt), Hp.
  - reflexivity.
Qed.

(** X6: the profile of a band at angle [j] is the sum, over the rows of
    the polar image whose radius [x] satisfies [lo <= x <= hi], of their
    value at [j]; both bounds are inclusive. *)
Theorem radial_integration_band_value IM radial_ranges h im g nr nt k rr j :
  h !! IM = Some im →
  reproject_image_into_polar im None None None None = Ok g →
  grid_shape g nr nt → 0 < nr → 0 < nt →
  bands_of (radii g) radial_ranges !! k = Some rr →
  j < nt →
  ∃ I mid profile,
    radial_integration reproject_image_into_polar IM radial_ranges h =
      (Ok (I, angles g, mid), h) ∧
    I !! k = Some profile ∧
    profile !! j =
      Some (fsum (column j
              (filter (λ x, fle rr.1 x.1 && fle x.1 rr.2)
                      (zip (radii g) (rows g.1.1))).*2)).
Proof.
  intros Hh Hg Hs Hnr Hnt Hk Hj. eexists _, _, _. split; [|split].
  - exact (radial_integration_run _ _ _ _ _ _ _ _ Hh Hg Hs Hnr Hnt).
  - rewrite list_lookup_fmap, Hk. reflexivity.
  - destruct g as [[p R] T]. destruct Hs as (Hp & _). simpl.
    rewrite (band_profile_rows p nr nt) by exact Hp.
    rewrite (sum_axis0_lookup nt j) by (exact Hj || apply (band_rows_rect p nr nt), Hp).
    unfold band_rows. rewrite compress_snd_filter. reflexivity.
Qed.

Lemma compress_single {A} (mask : list bool) (l : list A) (k : nat) (x : A) :
  length mask = length l →
  (∀ i, mask !! i = Some true ↔ i = k) →
  l !! k = Some x →
  compress mask l = [x].
Proof.
  revert l k. induction mask as [|b mask IH]; intros [|y l] k Hlen Hmask Hx;
    simpl in *; try discriminate.
  destruct k as [|k]; simpl in Hx.
  - injection Hx as ->. assert (b = true) as ->.
    { pose proof (proj2 (Hmask 0) eq_refl) as Hb. simpl in Hb. congruence. }
    f_equal. apply compress_none. apply Forall_lookup. intros i c Hc.
    destruct c; [|reflexivity]. specialize (proj1 (Hmask (S i)) Hc). discriminate.
  - assert (b = false) as ->.
    { destruct b; [|reflexivity]. specialize (proj1 (Hmask 0) eq_refl). discriminate. }
    apply (IH l k); [lia| |exact Hx].
    intros i. specialize (Hmask (S i)). simpl in Hmask. rewrite Hmask. lia.
Qed.

(** X7: a band that contains the radius of exactly one row returns that
    row as it is. *)
Theorem radial_integration_single_row IM radial_ranges h im g nr nt k rr i row :
  h !! IM = Some im →
  reproject_image_into_polar im None None None None = Ok g →
  grid_shape g nr nt → 0 < nr → 0 < nt →
  bands_of (radii g) radial_ranges !! k = Some rr →
  rows g.1.1 !! i = Some row →
  (∀ i' x, radii g !! i' = Some x → (fle rr.1 x && fle x rr.2 = true ↔ i' = i)) →
  ∃ I mid,
    radial_integration reproject_image_into_polar IM radial_ranges h =
      (Ok (I, angles g, mid), h) ∧
    I !! k = Some row.
Proof.
  intros Hh Hg Hs Hnr Hnt Hk Hrow Hone. eexists _, _. split.
  - exact (radial_integration_run _ _ _ _ _ _ _ _ Hh Hg Hs Hnr Hnt).
  - rewrite list_lookup_fmap, Hk. simpl. f_equal.
    destruct (grid_col_radii g nr nt Hs Hnt) as (_ & Hlen & Hp).
    unfold band_profile. rewrite (compress_single _ _ i row); [reflexivity| | |exact Hrow].
    + rewrite length_fmap. unfold nrows in Hp. lia.
    + intros i'. rewrite list_lookup_fmap. split.
      * destruct (radii g !! i') as [x|] eqn:Hx; [|discriminate].
        simpl. intros Hw. injection Hw as Hw. apply (Hone i' x Hx), Hw.
      * intros ->. destruct (lookup_lt_is_Some_2 (radii g) i) as [x Hx].
        { apply lookup_lt_Some in Hrow. unfold nrows in Hp. lia. }
        rewrite Hx. simpl. f_equal. apply (Hone i x Hx). reflexivity.
Qed.

(** *** Integer steps *)

(** X8: a positive step [n] gives [len(r) - n] bands, none when
    [n >= len(r)]; band [i] runs from [r[i]] to [r[i+n]] and its radius is
    their mean. *)
Theorem radial_integration_step IM (n : Z) h im g nr nt :
  (0 < n)%Z →
  h !! IM = Some im →
  reproject_image_into_polar im None None None None = Ok g →
  grid_shape g nr nt → 0 < nr → 0 < nt →
  ∃ I mid,
    radial_integration reproject_image_into_polar IM (Some (Step n)) h =
      (Ok (I, angles g, mid), h) ∧
    length I = length (radii g) - Z.to_nat n ∧
    length mid = length (radii g) - Z.to_nat n ∧
    ∀ i, i < length (radii g) - Z.to_nat n →
      ∃ lo hi, radii g !! i = Some lo ∧ radii g !! (i + Z.to_nat n) = Some hi ∧
        I !! i = Some (band_profile g.1.1 (radii g) (lo, hi)) ∧
        mid !! i = Some (fdiv (fadd lo hi) (of_int 2)).
Proof.
  intros Hn Hh Hg Hs Hnr Hnt. eexists _, _. split; [|split; [|split]].
  - exact (radial_integration_run _ _ _ _ _ _ _ _ Hh Hg Hs Hnr Hnt).
  - unfold bands_of. simpl. rewrite length_fmap. apply step_ranges_length, Hn.
  - unfold bands_of. simpl. rewrite length_fmap. apply step_ranges_length, Hn.
  - intros i Hi.
    destruct (step_ranges_lookup (radii g) n i Hn Hi) as (lo & hi & Hlo & Hhi & Hband).
    exists lo, hi. unfold bands_of. simpl. rewrite !list_lookup_fmap, Hband. auto.
Qed.

(** X9: the step 0 selects no band at all, because [r[:-0]] is the empty
    slice [r[:0]]: the call returns no profile and no radius, and does not
    raise. *)
Theorem radial_integration_step_zero IM h im g nr nt :
  h !! IM = Some im →
  reproject_image_into_polar im None None None None = Ok g →
  grid_shape g nr nt → 0 < nr → 0 < nt →
  radial_integration reproject_image_into_polar IM (Some (Step 0)) h =
  (Ok ([], angles g, []), h).
Proof.
  intros Hh Hg Hs Hnr Hnt.
  rewrite (radial_integration_run _ _ _ _ _ _ _ _ Hh Hg Hs Hnr Hnt).
  assert (Hnone : bands_of (radii g) (Some (Step 0)) = []).
  { unfold bands_of, step_ranges, slice_until, slice_bound. simpl.
    replace (Z.to_nat (Z.min (Z.of_nat (length (radii g))) 0)) with 0 by lia.
    reflexivity. }
  rewrite Hnone. reflexivity.
Qed.

(** X10: a negative step [-k] does not raise either: [r[:k]] is paired
    with the last [k] radii, which gives [min(k, len(r))] bands, band [i]
    running from [r[i]] to [r[len(r) - k + i]] when [k <= len(r)]. *)
Theorem radial_integration_negative_step IM (k : nat) h im g nr nt :
  0 < k ≤ length (radii g) →
  h !! IM = Some im →
  reproject_image_into_polar im None None None None = Ok g →
  grid_shape g nr nt → 0 < nr → 0 < nt →
  ∃ I mid,
    radial_integration reproject_image_into_polar IM (Some (Step (- Z.of_nat k))) h =
      (Ok (I, angles g, mid), h) ∧
    length I = k ∧
    ∀ i, i < k →
      ∃ lo hi, radii g !! i = Some lo ∧
        radii g !! (length (radii g) - k + i) = Some hi ∧
        I !! i = Some (band_profile g.1.1 (radii g) (lo, hi)).
Proof.
  intros Hk Hh Hg Hs Hnr Hnt.
  assert (Hstep : step_ranges (radii g) (- Z.of_nat k)
                  = zip (take k (radii g)) (drop (length (radii g) - k) (radii g))).
  { unfold step_ranges, slice_until, slice_from, slice_bound.
    destruct (Z.ltb_spec (- - Z.of_nat k) 0); [lia|].
    destruct (Z.ltb_spec (- Z.of_nat k) 0); [|lia].
    f_equal; f_equal; lia. }
  eexists _, _. split; [|split].
  - exact (radial_integration_run _ _ _ _ _ _ _ _ Hh Hg Hs Hnr Hnt).
  - unfold bands_of. simpl. rewrite length_fmap, Hstep.
    rewrite length_zip_with, length_take, length_drop. lia.
  - intros i Hi.
    destruct (lookup_lt_is_Some_2 (radii g) i) as [lo Hlo]; [lia|].
    destruct (lookup_lt_is_Some_2 (radii g) (length (radii g) - k + i)) as [hi Hhi]; [lia|].
    exists lo, hi. split; [exact Hlo|]. split; [exact Hhi|].
    unfold bands_of. simpl. rewrite list_lookup_fmap, Hstep.
    rewrite lookup_zip_with. rewrite lookup_take_lt, lookup_drop by lia.
    rewrite Hlo, Hhi. reflexivity.
Qed.

(** *** Degenerate grids *)

(** X11: on a grid without rows or without columns [radial_integration]
    raises [IndexError], from [theta_grid[0, :]] or from [r_grid[:, 0]],
    before it looks at the bands. *)
Theorem radial_integration_empty_grid IM radial_ranges h im g nr nt :
  h !! IM = Some im →
  reproject_image_into_polar im None None None None = Ok g →
  grid_shape g nr nt → nr = 0 ∨ nt = 0 →
  radial_integration reproject_image_into_polar IM radial_ranges h =
  (Raise IndexError, h).
Proof.
  intros Hh Hg Hs Hempty. destruct g as [[p R] T].
  destruct Hs as (_ & [HsR _] & [HsT _]).
  injection HsR as HnR HcR. injection HsT as HnT HcT.
  unfold radial_integration.
  rewrite (bind_deref _ _ _ _ Hh), (bind_lift_ok _ _ _ _ Hg).
  unfold row. unfold nrows in HnT.
  destruct (rows T) as [|t ts] eqn:HT; simpl.
  - reflexivity.
  - erewrite bind_lift_ok by reflexivity. apply bind_lift_raise.
    unfold col, col_upto. rewrite decide_False; [reflexivity|].
    simpl in HnT. lia.
Qed.

End MoreFacts.

(** ** Further properties of the fit *)

Section MoreFitFacts.
Context {F : Type} `{!Float F}.
Variable curve_fit :
  (F → F → F → F) → list F → list F → result (list F * array2 F).

Lemma select_by_theta_same_length (theta intensity : list F) (rs : list (F * F)) :
  length intensity = length theta →
  select_by_theta theta intensity (Some rs) =
  Ok (compress (kept (Some rs) <$> theta) theta,
      compress (kept (Some rs) <$> theta) intensity).
Proof.
  intros Hlen. unfold select_by_theta, mask1. rewrite theta_mask_kept.
  rewrite !decide_True by (rewrite length_fmap; congruence). reflexivity.
Qed.

Lemma select_by_theta_mismatch (theta intensity : list F) (rs : list (F * F)) :
  length intensity ≠ length theta →
  select_by_theta theta intensity (Some rs) = Raise IndexError.
Proof.
  intros Hlen.
  assert (Hth : mask1 theta (theta_mask theta rs)
                = Ok (compress (theta_mask theta rs) theta)).
  { unfold mask1. apply decide_True. rewrite theta_mask_kept. apply length_fmap. }
  unfold select_by_theta. rewrite Hth. unfold mask1.
  rewrite decide_False; [reflexivity|].
  rewrite theta_mask_kept, length_fmap. congruence.
Qed.

(** X12: with angular ranges, [theta] and [intensity] of different
    lengths make [anisotropy_parameter] raise [IndexError] at
    [intensity[subtheta]]; the solver is not reached. *)
Theorem anisotropy_parameter_length_mismatch (theta intensity : list F) (rs : list (F * F)) :
  length intensity ≠ length theta →
  anisotropy_parameter curve_fit theta intensity (Some rs) = Raise IndexError.
Proof.
  intros Hlen. unfold anisotropy_parameter.
  rewrite select_by_theta_mismatch by exact Hlen. reflexivity.
Qed.

Lemma compress_all {A} (l : list A) : compress ((λ _, true) <$> l) l = l.
Proof. induction l as [|x l IH]; simpl; [reflexivity|]. f_equal. exact IH. Qed.

Lemma compress_all_of {A B} (l : list A) (k : list B) :
  length k = length l → compress ((λ _, true) <$> l) k = k.
Proof.
  revert k. induction l as [|x l IH]; intros [|y k] Hlen; simpl in *;
    try reflexivity; try discriminate.
  f_equal. apply IH. lia.
Qed.

(** X13: an empty list of ranges excludes nothing: for data of equal
    lengths the result is the one obtained without ranges. *)
Theorem anisotropy_parameter_no_range (theta intensity : list F) :
  length intensity = length theta →
  anisotropy_parameter curve_fit theta intensity (Some []) =
  anisotropy_parameter curve_fit theta intensity None.
Proof.
  intros Hlen. unfold anisotropy_parameter.
  rewrite select_by_theta_same_length by exact Hlen.
  change (kept (Some []) <$> theta) with ((λ _ : F, true) <$> theta).
  rewrite compress_all, compress_all_of by exact Hlen. reflexivity.
Qed.

Lemma kept_permutation (rs rs' : list (F * F)) (t : F) :
  rs ≡ₚ rs' → kept (Some rs) t = kept (Some rs') t.
Proof.
  intros Hp. simpl. induction Hp as [|rt rs rs' _ IH|rt1 rt2 rs|rs1 rs2 rs3 _ IH1 _ IH2];
    simpl.
  - reflexivity.
  - rewrite IH. reflexivity.
  - rewrite !andb_assoc, (andb_comm (within rt2 t)). reflexivity.
  - congruence.
Qed.

(** X14: the ranges are combined by conjunction, so their order and their
    repetition in the list do not matter: a permutation of the ranges
    gives the same result. *)
Theorem anisotropy_parameter_ranges_permutation
    (theta intensity : list F) (rs rs' : list (F * F)) :
  rs ≡ₚ rs' →
  anisotropy_parameter curve_fit theta intensity (Some rs) =
  anisotropy_parameter curve_fit theta intensity (Some rs').
Proof.
  intros Hp.
  assert (Hmask : theta_mask theta rs = theta_mask theta rs').
  { rewrite !theta_mask_kept. apply list_fmap_ext. intros _ t _.
    apply kept_permutation, Hp. }
  unfold anisotropy_parameter, select_by_theta. rewrite Hmask. reflexivity.
Qed.

Lemma compress_nil_r {A} (mask : list bool) : compress mask ([] : list A) = [].
Proof. destruct mask; reflexivity. Qed.

Lemma compress_compress {A B} (f g : A → bool) (l : list A) (k : list B) :
  compress (g <$> compress (f <$> l) l) (compress (f <$> l) k) =
  compress ((λ t, f t && g t) <$> l) k.
Proof.
  revert k. induction l as [|x l IH]; intros [|y k]; simpl; try reflexivity.
  - destruct (f x); simpl; [reflexivity|]. apply compress_nil_r.
  - destruct (f x); simpl; [|apply IH]. destruct (g x); [f_equal|]; apply IH.
Qed.

(** X15: filtering by the ranges [rs1 ++ rs2] is filtering by [rs1] and
    then filtering what is left by [rs2]: intersecting ranges can be done
    in stages. *)
Theorem anisotropy_parameter_ranges_app
    (theta intensity : list F) (rs1 rs2 : list (F * F)) :
  anisotropy_parameter curve_fit theta intensity (Some (rs1 ++ rs2)) =
  select_by_theta theta intensity (Some rs1) ≫= λ '(theta', intensity'),
    anisotropy_parameter curve_fit theta' intensity' (Some rs2).
Proof.
  destruct (decide (length intensity = length theta)) as [Hlen|Hlen].
  - rewrite (select_by_theta_same_length theta intensity rs1 Hlen). simpl.
    unfold anisotropy_parameter.
    rewrite (select_by_theta_same_length theta intensity (rs1 ++ rs2) Hlen).
    rewrite select_by_theta_same_length by (apply compress_length_eq; congruence).
    rewrite !compress_compress.
    assert (Hmask : (λ t, kept (Some rs1) t && kept (Some rs2) t) <$> theta
                    = kept (Some (rs1 ++ rs2)) <$> theta).
    { apply list_fmap_ext. intros _ t _. simpl. symmetry. apply forallb_app. }
    rewrite Hmask. reflexivity.
  - rewrite (select_by_theta_mismatch theta intensity rs1 Hlen).
    unfold anisotropy_parameter.
    rewrite (select_by_theta_mismatch theta intensity (rs1 ++ rs2) Hlen). reflexivity.
Qed.

(** X16: when the solver answers with the parameters [beta, amplitude]
    and a 2 x 2 covariance, [anisotropy_parameter] pairs [beta] with the
    square root of the first diagonal entry and [amplitude] with the
    square root of the second. *)
Theorem anisotropy_parameter_errors
    (theta intensity theta' intensity' : list F) theta_ranges
    (beta amplitude : F) (pcov : array2 F) :
  select_by_theta theta intensity theta_ranges = Ok (theta', intensity') →
  curve_fit PAD theta' intensity' = Ok ([beta; amplitude], pcov) →
  has_shape pcov 2 2 →
  anisotropy_parameter curve_fit theta intensity theta_ranges =
  Ok ((beta, fsqrt (cell pcov 0 0)), (amplitude, fsqrt (cell pcov 1 1))).
Proof.
  intros Hsel Hfit Hcov. unfold anisotropy_parameter. rewrite Hsel. simpl.
  rewrite Hfit. simpl.
  destruct (has_shape_cell pcov 2 2 0 0 Hcov) as (r0 & Hr0 & _ & Hx0); [lia|lia|].
  destruct (has_shape_cell pcov 2 2 1 1 Hcov) as (r1 & Hr1 & _ & Hx1); [lia|lia|].
  destruct Hcov as [Hs _]. injection Hs as Hn _. unfold nrows in Hn.
  unfold diag. destruct (rows pcov) as [|a [|b [|c rest]]]; try discriminate.
  simpl in Hr0, Hr1. injection Hr0 as ->. injection Hr1 as ->.
  simpl. rewrite Hx0, Hx1. reflexivity.
Qed.

End MoreFitFacts.

(** ** The further properties at concrete inputs *)

Lemma angular_integration_plain_witness :
  ∃ speeds,
    angular_integration Sample.resample 1%positive
      PyNone (PyBool false) (PyInt 1) PyNone Sample.heap4 =
      (Ok (radii Sample.polar4, speeds), Sample.heap4) ∧
    length speeds = 4 ∧
    speeds !! 3 = Some 16%Q.
Proof.
  destruct (angular_integration_plain
              Sample.resample 1%positive PyNone (PyBool false) (PyInt 1) PyNone
              Sample.heap4 Sample.image4 Sample.polar4 4 3)
    as (speeds & Hrun & Hlen & Hval).
  - reflexivity.
  - vm_compute. reflexivity.
  - vm_compute. reflexivity.
  - repeat split; unfold rect; simpl; repeat constructor.
  - lia.
  - lia.
  - exists speeds. split; [exact Hrun|]. split; [exact Hlen|].
    rewrite (Hval 3) by lia. vm_compute. reflexivity.
Defined.

Lemma angular_integration_too_few_angles_witness :
  angular_integration Sample.resample 1%positive
    PyNone (PyBool false) (PyInt 1) PyNone Sample.heap_degenerate =
  (Raise IndexError, Sample.heap_degenerate).
Proof.
  apply (angular_integration_too_few_angles
           Sample.resample 1%positive PyNone (PyBool false) (PyInt 1) PyNone
           Sample.heap_degenerate Sample.image_one_angle Sample.polar_one_angle 2 1).
  - vm_compute. reflexivity.
  - vm_compute. reflexivity.
  - repeat split; unfold rect; simpl; repeat constructor.
  - right. lia.
Defined.

Lemma average_radial_intensity_profile_witness :
  ∃ intensity,
    average_radial_intensity Sample.resample 1%positive ∅ Sample.heap4 =
      (Ok (radii Sample.polar4, intensity), Sample.heap4) ∧
    length intensity = 4 ∧
    intensity !! 3 = Some (904 # 355)%Q.
Proof.
  destruct (average_radial_intensity_profile
              Sample.resample 1%positive ∅ Sample.heap4
              Sample.image4 Sample.polar4 4 3)
    as (intensity & Hrun & Hlen & Hval).
  - apply (bool_decide_eq_true_1 _). vm_compute. reflexivity.
  - vm_compute. reflexivity.
  - vm_compute. reflexivity.
  - repeat split; unfold rect; simpl; repeat constructor.
  - lia.
  - lia.
  - exists intensity. split; [exact Hrun|]. split; [exact Hlen|].
    rewrite (Hval 3) by lia. vm_compute. reflexivity.
Defined.

Lemma average_radial_intensity_unexpected_keyword_witness :
  average_radial_intensity Sample.resample 1%positive
    {[ "center"%string := PyPair 1%Q 1%Q ]} Sample.heap4 =
  (Raise TypeError, Sample.heap4).
Proof.
  apply (average_radial_intensity_unexpected_keyword
           Sample.resample 1%positive _ "center"%string).
  - exists (PyPair 1%Q 1%Q). vm_compute. reflexivity.
  - apply (bool_decide_eq_false_1 _). vm_compute. reflexivity.
Defined.

Lemma radial_integration_shape_witness :
  ∃ I mid,
    radial_integration Sample.resample 1%positive
      (Some (Ranges [(0, 1); (5, 7)]%Q)) Sample.heap4 =
      (Ok (I, angles Sample.polar4, mid), Sample.heap4) ∧
    length I = 2 ∧
    Forall (λ profile, length profile = 3) I ∧
    mid = [1 # 2; 6]%Q.
Proof.
  destruct (radial_integration_shape
              Sample.resample 1%positive (Some (Ranges [(0, 1); (5, 7)]%Q)) Sample.heap4
              Sample.image4 Sample.polar4 4 3)
    as (I & mid & Hrun & HI & Hprof & Hmid).
  - vm_compute. reflexivity.
  - vm_compute. reflexivity.
  - repeat split; unfold rect; simpl; repeat constructor.
  - lia.
  - lia.
  - exists I, mid. split; [exact Hrun|]. split; [exact HI|]. split; [exact Hprof|].
    rewrite Hmid. vm_compute. reflexivity.
Defined.

Lemma radial_integration_band_value_witness :
  ∃ I mid profile,
    radial_integration Sample.resample 1%positive
      (Some (Ranges [(0, 1); (5, 7)]%Q)) Sample.heap4 =
      (Ok (I, angles Sample.polar4, mid), Sample.heap4) ∧
    I !! 0 = Some profile ∧
    profile !! 2 = Some 3%Q.
Proof.
  destruct (radial_integration_band_value
              Sample.resample 1%positive (Some (Ranges [(0, 1); (5, 7)]%Q)) Sample.heap4
              Sample.image4 Sample.polar4 4 3 0 (0, 1)%Q 2)
    as (I & mid & profile & Hrun & HI & Hval).
  - vm_compute. reflexivity.
  - vm_compute. reflexivity.
  - repeat split; unfold rect; simpl; repeat constructor.
  - lia.
  - lia.
  - reflexivity.
  - lia.
  - exists I, mid, profile. split; [exact Hrun|]. split; [exact HI|].
    rewrite Hval. vm_compute. reflexivity.
Defined.

Lemma radial_integration_single_row_witness :
  ∃ I mid,
    radial_integration Sample.resample 1%positive
      (Some (Ranges [(1, 1)]%Q)) Sample.heap4 =
      (Ok (I, angles Sample.polar4, mid), Sample.heap4) ∧
    I !! 0 = Some [2; 2; 2]%Q.
Proof.
  apply (radial_integration_single_row
           Sample.resample 1%positive (Some (Ranges [(1, 1)]%Q)) Sample.heap4
           Sample.image4 Sample.polar4 4 3 0 (1, 1)%Q 1 [2; 2; 2]%Q).
  - vm_compute. reflexivity.
  - vm_compute. reflexivity.
  - repeat split; unfold rect; simpl; repeat constructor.
  - lia.
  - lia.
  - reflexivity.
  - reflexivity.
  - intros i' x Hx.
    destruct i' as [|[|[|[|i']]]]; vm_compute in Hx; try discriminate Hx;
      injection Hx as <-; vm_compute; split; intros Heq; congruence.
Defined.

Lemma radial_integration_step_witness :
  ∃ I mid,
    radial_integration Sample.resample 1%positive (Some (Step 3)) Sample.heap4 =
      (Ok (I, angles Sample.polar4, mid), Sample.heap4) ∧
    length I = 1 ∧ length mid = 1 ∧
    mid !! 0 = Some (3 # 2)%Q.
Proof.
  destruct (radial_integration_step
              Sample.resample 1%positive 3 Sample.heap4
              Sample.image4 Sample.polar4 4 3)
    as (I & mid & Hrun & HI & Hmid & Hbands).
  - lia.
  - vm_compute. reflexivity.
  - vm_compute. reflexivity.
  - repeat split; unfold rect; simpl; repeat constructor.
  - lia.
  - lia.
  - exists I, mid. split; [exact Hrun|]. split; [exact HI|]. split; [exact Hmid|].
    destruct (Hbands 0) as (lo & hi & Hlo & Hhi & _ & Hm).
    + simpl. lia.
    + injection Hlo as <-. injection Hhi as <-. exact Hm.
Defined.

Lemma radial_integration_step_zero_witness :
  radial_integration Sample.resample 1%positive (Some (Step 0)) Sample.heap4 =
  (Ok ([], angles Sample.polar4, []), Sample.heap4).
Proof.
  apply (radial_integration_step_zero
           Sample.resample 1%positive Sample.heap4 Sample.image4 Sample.polar4 4 3).
  - vm_compute. reflexivity.
  - vm_compute. reflexivity.
  - repeat split; unfold rect; simpl; repeat constructor.
  - lia.
  - lia.
Defined.

Lemma radial_integration_negative_step_witness :
  ∃ I mid,
    radial_integration Sample.resample 1%positive (Some (Step (-1))) Sample.heap4 =
      (Ok (I, angles Sample.polar4, mid), Sample.heap4) ∧
    length I = 1 ∧
    I !! 0 = Some [15; 15; 15]%Q.
Proof.
  destruct (radial_integration_negative_step
              Sample.resample 1%positive 1 Sample.heap4
              Sample.image4 Sample.polar4 4 3)
    as (I & mid & Hrun & HI & Hbands).
  - simpl. lia.
  - vm_compute. reflexivity.
  - vm_compute. reflexivity.
  - repeat split; unfold rect; simpl; repeat constructor.
  - lia.
  - lia.
  - exists I, mid. split; [exact Hrun|]. split; [exact HI|].
    destruct (Hbands 0) as (lo & hi & Hlo & Hhi & Hprof); [lia|].
    injection Hlo as <-. injection Hhi as <-. rewrite Hprof.
    vm_compute. reflexivity.
Defined.

Lemma radial_integration_empty_grid_witness :
  radial_integration Sample.resample 2%positive None Sample.heap_degenerate =
  (Raise IndexError, Sample.heap_degenerate).
Proof.
  apply (radial_integration_empty_grid
           Sample.resample 2%positive None Sample.heap_degenerate
           Sample.image_no_row Sample.polar_no_row 0 3).
  - vm_compute. reflexivity.
  - vm_compute. reflexivity.
  - repeat split; unfold rect; simpl; repeat constructor.
  - left. reflexivity.
Defined.

Lemma anisotropy_parameter_length_mismatch_witness :
  anisotropy_parameter Sample.solve [0; 1]%Q [5]%Q (Some [(0, 1)]%Q) = Raise IndexError.
Proof.
  apply (anisotropy_parameter_length_mismatch Sample.solve). simpl. lia.
Defined.

Lemma anisotropy_parameter_no_range_witness :
  anisotropy_parameter Sample.solve [0; 1]%Q [5; 6]%Q (Some []) =
  anisotropy_parameter Sample.solve [0; 1]%Q [5; 6]%Q None.
Proof.
  apply (anisotropy_parameter_no_range Sample.solve). reflexivity.
Defined.

Lemma anisotropy_parameter_ranges_permutation_witness :
  anisotropy_parameter Sample.solve [0; 1; 2; 3]%Q [5; 6; 7; 8]%Q
    (Some [(1, 3); (0, 2)]%Q) =
  anisotropy_parameter Sample.solve [0; 1; 2; 3]%Q [5; 6; 7; 8]%Q
    (Some [(0, 2); (1, 3)]%Q).
Proof.
  apply (anisotropy_parameter_ranges_permutation Sample.solve). constructor.
Defined.

Lemma anisotropy_parameter_errors_witness :
  anisotropy_parameter Sample.solve [0; 1]%Q [5; 6]%Q None =
  Ok ((0, 1 # 2), (1, 1 # 2))%Q.
Proof.
  rewrite (anisotropy_parameter_errors Sample.solve
             [0; 1]%Q [5; 6]%Q [0; 1]%Q [5; 6]%Q None 0%Q 1%Q
             (Array2 2 [[0; 0]; [0; 0]]%Q)).
  - vm_compute. reflexivity.
  - reflexivity.
  - vm_compute. reflexivity.
  - repeat split; unfold rect; simpl; repeat constructor.
Defined.

(** ** radial_integration on the heap of objects *)

Section HeapFacts.
Context {F : Type} `{!Float F}.

Lemma py_bind_run {A B} (m : Py F A) (k : A → Py F B) h :
  (m ≫= k) h = match m h with
               | (Ok a, h') => k a h'
               | (Raise e, h') => (Raise e, h')
               end.
Proof. reflexivity. Qed.

Lemma py_lift_ok {A B} (r : result A) (a : A) (k : A → Py F B) h :
  r = Ok a → (py_lift r ≫= k) h = k a h.
Proof. intros ->. reflexivity. Qed.

Lemma py_lift_raise {A B} (r : result A) e (k : A → Py F B) h :
  r = Raise e → (py_lift r ≫= k) h = (Raise e, h).
Proof. intros ->. reflexivity. Qed.

Lemma load_nd_run {B} (l : loc) (a : array2 F) (k : array2 F → Py F B) h :
  h !! l = Some (ONd a) → (load_nd l ≫= k) h = k a h.
Proof.
  intros Hl. unfold load_nd. rewrite !py_bind_run. unfold py_load. rewrite Hl. reflexivity.
Qed.

Lemma load_profiles_run {B} (l : loc) xs (k : list (list F) → Py F B) h :
  h !! l = Some (OProfiles xs) → (load_profiles l ≫= k) h = k xs h.
Proof.
  intros Hl. unfold load_profiles. rewrite !py_bind_run. unfold py_load. rewrite Hl.
  reflexivity.
Qed.

Lemma load_floats_run {B} (l : loc) xs (k : list F → Py F B) h :
  h !! l = Some (OFloats xs) → (load_floats l ≫= k) h = k xs h.
Proof.
  intros Hl. unfold load_floats. rewrite !py_bind_run. unfold py_load. rewrite Hl.
  reflexivity.
Qed.

Lemma append_profile_run {B} (l : loc) xs x (k : unit → Py F B) h :
  h !! l = Some (OProfiles xs) →
  (append_profile l x ≫= k) h = k () (<[l := OProfiles (xs ++ [x])]> h).
Proof.
  intros Hl. unfold append_profile. rewrite py_bind_run, (load_profiles_run _ _ _ _ Hl).
  unfold py_store. rewrite Hl. reflexivity.
Qed.

Lemma append_float_run {B} (l : loc) xs x (k : unit → Py F B) h :
  h !! l = Some (OFloats xs) →
  (append_float l x ≫= k) h = k () (<[l := OFloats (xs ++ [x])]> h).
Proof.
  intros Hl. unfold append_float. rewrite py_bind_run, (load_floats_run _ _ _ _ Hl).
  unfold py_store. rewrite Hl. reflexivity.
Qed.

(** The loop writes to its two lists and to nothing else, and leaves in
    them what the loop on values computes. *)
Lemma band_loop_h_run (lp aI am : loc) (p : array2 F) (r : list F) bands accI accm
    (h : gmap loc (pyobj F)) :
  aI ≠ am → lp ≠ aI → lp ≠ am →
  h !! lp = Some (ONd p) →
  h !! aI = Some (OProfiles accI) →
  h !! am = Some (OFloats accm) →
  ∃ h', (∀ l, l ≠ aI → l ≠ am → h' !! l = h !! l) ∧
    match band_loop p r bands accI accm with
    | Ok (profiles, mid) =>
        band_loop_h lp r bands aI am h = (Ok (), h') ∧
        h' !! aI = Some (OProfiles profiles) ∧ h' !! am = Some (OFloats mid)
    | Raise e => band_loop_h lp r bands aI am h = (Raise e, h')
    end.
Proof.
  intros Hne HpI Hpm. revert accI accm h.
  induction bands as [|rr bands IH]; intros accI accm h Hp HI Hm.
  - exists h. simpl. auto.
  - simpl. rewrite (load_nd_run _ _ _ _ Hp).
    destruct (mask_rows p _) as [sel|e] eqn:Hsel.
    + rewrite (py_lift_ok _ sel) by reflexivity.
      rewrite (append_profile_run _ _ _ _ _ HI).
      rewrite (append_float_run _ accm)
        by (rewrite lookup_insert_ne by exact Hne; exact Hm).
      destruct (IH (accI ++ [sum_axis0 sel]) (accm ++ [mean2 rr])
                  (<[am := OFloats (accm ++ [mean2 rr])]>
                     (<[aI := OProfiles (accI ++ [sum_axis0 sel])]> h)))
        as (h' & Hframe & Hrun).
      * rewrite !lookup_insert_ne by congruence. exact Hp.
      * rewrite lookup_insert_ne by congruence. apply lookup_insert_eq.
      * apply lookup_insert_eq.
      * exists h'. split; [|exact Hrun].
        intros l HlI Hlm. rewrite (Hframe l HlI Hlm).
        rewrite !lookup_insert_ne by congruence. reflexivity.
    + exists h. split; [reflexivity|].
      rewrite (py_lift_raise _ e) by reflexivity. reflexivity.
Qed.

Variable reproject_h : loc → Py F (loc * loc * loc).
Variable reproject_image_into_polar :
  array2 F → option (pyval F) → option (pyval F) → option (pyval F) →
  option (pyval F) → result (PolarGrid F).

(** One call: it returns what [radial_integration] returns on values, and
    every object that existed before the call is still there, unchanged. *)
Lemma radial_integration_h_run IM radial_ranges (h : gmap loc (pyobj F)) im :
  resampler_contract reproject_h reproject_image_into_polar →
  h !! IM = Some (ONd im) →
  ∃ h1, h ⊆ h1 ∧
    radial_integration_h reproject_h IM radial_ranges h =
    ((radial_integration reproject_image_into_polar IM radial_ranges {[IM := im]}).1, h1).
Proof.
  intros Hres Hh.
  destruct (Hres h IM im Hh) as (h' & Hsub & Hcall).
  unfold radial_integration, radial_integration_h.
  rewrite (bind_deref _ _ _ _ (lookup_singleton_eq IM im)).
  rewrite py_bind_run.
  destruct (reproject_image_into_polar im None None None None) as [[[p rg] tg]|e] eqn:Hg.
  2:{ rewrite Hcall. exists h'. split; [exact Hsub | reflexivity]. }
  destruct Hcall as (lp & lr & lt & -> & Hp & Hr & Ht).
  rewrite (bind_lift_ok _ (p, rg, tg)) by reflexivity.
  rewrite (load_nd_run _ _ _ _ Ht).
  destruct (row tg 0) as [theta|e] eqn:Hrow.
  2:{ rewrite (py_lift_raise _ e), (bind_lift_raise _ e) by reflexivity.
      exists h'. split; [exact Hsub | reflexivity]. }
  rewrite (py_lift_ok _ theta), (bind_lift_ok _ theta) by reflexivity.
  rewrite (load_nd_run _ _ _ _ Hr).
  destruct (col rg 0) as [r|e] eqn:Hcol.
  2:{ rewrite (py_lift_raise _ e), (bind_lift_raise _ e) by reflexivity.
      exists h'. split; [exact Hsub | reflexivity]. }
  rewrite (py_lift_ok _ r), (bind_lift_ok _ r) by reflexivity.
  set (bands := match default (Step 1) radial_ranges with
                | Step n => step_ranges r n
                | Ranges l => l
                end).
  rewrite py_bind_run. unfold py_alloc at 1. cbv zeta.
  rewrite py_bind_run. unfold py_alloc at 1. cbv zeta.
  set (aI := fresh (dom h')).
  set (hA := <[aI := OProfiles []]> h').
  set (am := fresh (dom hA)).
  set (hB := <[am := OFloats []]> hA).
  assert (HaI : h' !! aI = None) by (apply not_elem_of_dom, is_fresh).
  assert (Ham : hA !! am = None) by (apply not_elem_of_dom, is_fresh).
  assert (Hne : aI ≠ am).
  { intros Heq. rewrite <- Heq in Ham. unfold hA in Ham.
    rewrite lookup_insert_eq in Ham. discriminate. }
  assert (Hold : ∀ l o, h' !! l = Some o → l ≠ aI ∧ l ≠ am).
  { intros l o Hl. split; intros ->; [congruence|].
    unfold hA in Ham. rewrite lookup_insert_ne in Ham by congruence. congruence. }
  destruct (Hold lp _ Hp) as [HpI Hpm].
  destruct (band_loop_h_run lp aI am p r bands [] [] hB Hne HpI Hpm)
    as (h1 & Hframe & Hloop).
  { unfold hB, hA. rewrite !lookup_insert_ne by congruence. exact Hp. }
  { unfold hB, hA. rewrite lookup_insert_ne by congruence. apply lookup_insert_eq. }
  { unfold hB. apply lookup_insert_eq. }
  assert (Hsub1 : h ⊆ h1).
  { apply map_subseteq_spec. intros l o Hl.
    assert (Hl' : h' !! l = Some o) by exact (lookup_weaken _ _ _ _ Hl Hsub).
    destruct (Hold l o Hl') as [HlI Hlm].
    rewrite (Hframe l HlI Hlm). unfold hB, hA.
    rewrite !lookup_insert_ne by congruence. exact Hl'. }
  exists h1. split; [exact Hsub1|].
  rewrite py_bind_run.
  destruct (band_loop p r bands [] []) as [[I mid]|e] eqn:Hpure.
  - destruct Hloop as (-> & HI & Hm).
    rewrite (load_profiles_run _ _ _ _ HI), (load_floats_run _ _ _ _ Hm).
    rewrite (bind_lift_ok _ (I, mid)) by reflexivity. reflexivity.
  - rewrite Hloop. rewrite (bind_lift_raise _ e) by reflexivity. reflexivity.
Qed.

(** C9: [radial_integration] writes in place only to the two lists it
    has created itself.  Whatever the heap holds, a call returns the
    result of [radial_integration] on the value of the image, every
    object that existed before the call (the input image among them) is
    unchanged after it, and a second call, made in the heap the first one
    left, returns the same result and again changes no existing object. *)
Theorem radial_integration_h_repeatable IM radial_ranges (h : gmap loc (pyobj F)) im :
  resampler_contract reproject_h reproject_image_into_polar →
  h !! IM = Some (ONd im) →
  ∃ out h1 h2,
    radial_integration_h reproject_h IM radial_ranges h = (out, h1) ∧
    radial_integration_h reproject_h IM radial_ranges h1 = (out, h2) ∧
    out = (radial_integration reproject_image_into_polar IM radial_ranges {[IM := im]}).1 ∧
    h ⊆ h1 ∧ h1 ⊆ h2 ∧
    h1 !! IM = Some (ONd im) ∧ h2 !! IM = Some (ONd im).
Proof.
  intros Hres Hh.
  destruct (radial_integration_h_run IM radial_ranges h im Hres Hh) as (h1 & Hsub1 & Hrun1).
  assert (Hh1 : h1 !! IM = Some (ONd im)) by exact (lookup_weaken _ _ _ _ Hh Hsub1).
  destruct (radial_integration_h_run IM radial_ranges h1 im Hres Hh1) as (h2 & Hsub2 & Hrun2).
  assert (Hh2 : h2 !! IM = Some (ONd im)) by exact (lookup_weaken _ _ _ _ Hh1 Hsub2).
  eexists _, h1, h2. repeat split; eassumption || reflexivity.
Qed.

End HeapFacts.

(** The resampler made from one on values meets the contract. *)
Lemma resample_by_value_contract {F : Type}
    (reproject : array2 F → option (pyval F) → option (pyval F) →
                 option (pyval F) → option (pyval F) → result (PolarGrid F)) :
  resampler_contract (resample_by_value reproject) reproject.
Proof.
  intros h IM im Hh. unfold resample_by_value.
  destruct (reproject im None None None None) as [[[p r] t]|e] eqn:Hg.
  - set (lp := fresh (dom h)).
    set (h1 := <[lp := ONd p]> h).
    set (lr := fresh (dom h1)).
    set (h2 := <[lr := ONd r]> h1).
    set (lt := fresh (dom h2)).
    set (h3 := <[lt := ONd t]> h2).
    assert (Hlp : h !! lp = None) by (apply not_elem_of_dom, is_fresh).
    assert (Hlr : h1 !! lr = None) by (apply not_elem_of_dom, is_fresh).
    assert (Hlt : h2 !! lt = None) by (apply not_elem_of_dom, is_fresh).
    assert (Hr2 : h2 !! lr = Some (ONd r)) by apply lookup_insert_eq.
    assert (Hp1 : h1 !! lp = Some (ONd p)) by apply lookup_insert_eq.
    assert (Hp2 : h2 !! lp = Some (ONd p)).
    { unfold h2. rewrite lookup_insert_ne by congruence. exact Hp1. }
    exists h3. split.
    + transitivity h1; [apply insert_subseteq, Hlp|].
      transitivity h2; [apply insert_subseteq, Hlr|]. apply insert_subseteq, Hlt.
    + exists lp, lr, lt. split; [|split; [|split]].
      * rewrite (load_nd_run _ _ _ _ Hh), Hg. reflexivity.
      * unfold h3. rewrite lookup_insert_ne by congruence. exact Hp2.
      * unfold h3. rewrite lookup_insert_ne by congruence. exact Hr2.
      * apply lookup_insert_eq.
  - exists h. split; [reflexivity|].
    rewrite (load_nd_run _ _ _ _ Hh), Hg. reflexivity.
Qed.

Lemma radial_integration_h_repeatable_witness :
  ∃ out h1 h2,
    radial_integration_h (resample_by_value Sample.resample) 1%positive None
      sample_object_heap = (out, h1) ∧
    radial_integration_h (resample_by_value Sample.resample) 1%positive None h1 = (out, h2) ∧
    out = (radial_integration Sample.resample 1%positive None
             {[1%positive := Sample.image4]}).1 ∧
    sample_object_heap ⊆ h1 ∧ h1 ⊆ h2 ∧
    h1 !! 1%positive = Some (ONd Sample.image4) ∧
    h2 !! 1%positive = Some (ONd Sample.image4).
Proof.
  apply (radial_integration_h_repeatable
           (resample_by_value Sample.resample) Sample.resample
           1%positive None sample_object_heap Sample.image4).
  - apply resample_by_value_contract.
  - vm_compute. reflexivity.
Defined.
